(** * Coherent diffraction imaging: the difference-map driver of [skxray/cdi.py]

    A shallow embedding of [pi_modulus], [find_support], [pi_support],
    [cal_relative_error], [cal_diff_error] and [cdi_recon], with the numpy
    arrays the functions share kept in an explicit store, so that in-place
    updates ([sample_obj += ...], [a[mask] = v]) and copies ([np.array(x)])
    are told apart.  [generate_box_support] is embedded with the slices it
    indexes its array with.

    The arithmetic of numpy's scalars and the library routines
    ([np.fft.fftn], [np.fft.ifftn], [np.linalg.norm],
    [scipy.ndimage.gaussian_filter]) are the fields of the class [Numeric];
    the theorems hold for every instance.  [Float64] is an instance over
    IEEE-754 binary64 numbers on which concrete calls are evaluated. *)

From Stdlib Require Import ZArith String Ascii Floats.
From stdpp Require Import base tactics option list numbers.

Local Open Scope Z_scope.
Local Open Scope nat_scope.

(** ** Arrays *)

(** An [ndarray] is a shape and a row-major buffer. *)
Record ndarray (A : Type) := mk_nd { shape : list nat; data : list A }.
Arguments mk_nd {A} _ _.
Arguments shape {A} _.
Arguments data {A} _.

(** [np.size]: the product of the shape. *)
Definition np_size {A} (a : ndarray A) : nat := foldr Nat.mul 1 (shape a).

(** The buffer of a well-formed array has [np_size] elements. *)
Definition wf {A} (a : ndarray A) : Prop := length (data a) = np_size a.

#[export] Instance wf_dec {A} (a : ndarray A) : Decision (wf a).
Proof. unfold wf. apply _. Defined.

Definition nd_map {A B} (f : A → B) (a : ndarray A) : ndarray B :=
  mk_nd (shape a) (f <$> data a).

Definition nd_zip {A B C} (f : A → B → C) (a : ndarray A) (b : ndarray B) : ndarray C :=
  mk_nd (shape a) (zip_with f (data a) (data b)).

(** ** Python exceptions and results *)

Inductive exn :=
  | IndexError    (* boolean index did not match indexed array; index out of bounds *)
  | ValueError    (* operands could not be broadcast; max of an empty array; negative
                     dimensions; a Fourier transform along an axis of no element *)
  | TypeError     (* a complex sum cannot be cast to the float64 array it is added to *)
  | ZeroDivisionError  (* Python's division of a float by zero *)
  | Dangling.     (* a reference to no array: cannot happen in Python *)

Inductive result (A : Type) :=
  | Ok (a : A)
  | Raise (e : exn).
Arguments Ok {A} _.
Arguments Raise {A} _.

(** The second computation on the value of the first, when it returned. *)
Definition and_then {A B} (r : result A) (f : A → result B) : result B :=
  match r with
  | Ok a => f a
  | Raise e => Raise e
  end.

#[export] Instance exn_eq_dec : EqDecision exn.
Proof. solve_decision. Defined.

(** ** Shifts: [np.roll], [np.fft.fftshift], [np.fft.ifftshift] *)

(** [np.roll] of a one-dimensional array: the element at [i] moves to
    [(i + k) mod n]. *)
Definition roll {A} (k : Z) (l : list A) : list A :=
  match length l with
  | 0 => l
  | S _ as n => let r := Z.to_nat (k `mod` Z.of_nat n) in
                drop (n - r) l ++ take (n - r) l
  end.

(** The [cnt] consecutive blocks of [sz] elements of a row-major buffer. *)
Fixpoint chunks {A} (sz cnt : nat) (d : list A) : list (list A) :=
  match cnt with
  | 0 => []
  | S c => take sz d :: chunks sz c (drop sz d)
  end.

(** [np.roll(x, shifts, axes)] over the leading axes of a row-major buffer of
    shape [sh]: the blocks of the first axis are rolled, and each block is
    rolled along the remaining axes. *)
Fixpoint roll_axes {A} (shifts : list Z) (sh : list nat) (d : list A) : list A :=
  match shifts, sh with
  | k :: ks, n :: rest =>
      mjoin (roll k (roll_axes ks rest <$> chunks (foldr Nat.mul 1 rest) n d))
  | _, _ => d
  end.

Definition np_roll {A} (shifts : list Z) (a : ndarray A) : ndarray A :=
  mk_nd (shape a) (roll_axes shifts (shape a) (data a)).

(** [np.fft.fftshift]: every axis rolled by [dim // 2]. *)
Definition fftshift {A} (a : ndarray A) : ndarray A :=
  np_roll ((λ d, Z.of_nat (d / 2)) <$> shape a) a.

(** [np.fft.ifftshift]: every axis rolled by [-(dim // 2)]. *)
Definition ifftshift {A} (a : ndarray A) : ndarray A :=
  np_roll ((λ d, - Z.of_nat (d / 2))%Z <$> shape a) a.

(** ** The numeric kernel *)

(** numpy's scalars and the library routines the module calls.  A [num] is a
    float64 or a complex128; the operations promote as numpy does. *)
Class Numeric := {
  num : Type;
  of_Z : Z → num;                       (* an int converted to float64 *)
  fadd : num → num → num;
  fsub : num → num → num;
  fmul : num → num → num;
  fdiv : num → num → num;               (* total: x/0 is inf or nan, with a warning *)
  fabs : num → num;                     (* np.abs: the modulus, a float64 *)
  fsqrt : num → num;                    (* np.sqrt *)
  flt : num → num → bool;               (* < on float64 *)
  fle : num → num → bool;               (* <= on float64 *)
  fmax : num → num → num;               (* the reduction step of np.max *)
  astype_complex : num → num;           (* .astype(complex) *)
  fis_complex : num → bool;             (* is the number a complex128? *)
  fis_zero : num → bool;                (* x == 0 *)
  eps12 : num;                          (* the literal 1e-12 *)
  norm : list num → num;                (* np.linalg.norm of the flattened array *)
  fftn : ndarray num → ndarray num;     (* np.fft.fftn, on an array with no empty axis *)
  ifftn : ndarray num → ndarray num;    (* np.fft.ifftn, on an array with no empty axis *)
  gaussian_filter : ndarray num → num → ndarray num;  (* scipy.ndimage *)
}.

(** What the theorems use of the kernel: the library routines return an
    array of the shape of their argument, no number is below itself, zero
    plus zero is zero, [.astype(complex)] gives complex numbers, and the sum
    of a complex number and any number is complex. *)
Class NumericLaws (K : Numeric) : Prop := {
  flt_irrefl x : flt x x = false;
  fadd_0_0 : fadd (of_Z 0) (of_Z 0) = of_Z 0;
  fis_complex_astype v : fis_complex (astype_complex v) = true;
  fis_complex_fadd a b : fis_complex a = true → fis_complex (fadd a b) = true;
  fftn_shape a : shape (fftn a) = shape a;
  fftn_wf a : wf a → wf (fftn a);
  ifftn_shape a : shape (ifftn a) = shape a;
  ifftn_wf a : wf a → wf (ifftn a);
  gaussian_filter_shape a s : shape (gaussian_filter a s) = shape a;
  gaussian_filter_wf a s : wf a → wf (gaussian_filter a s);
}.

(** ** The store *)

(** A Python variable holds a reference; the arrays live in the store.  A new
    array gets the next free location, so an array made during a call never
    shares its location with one the caller holds.  The store holds the
    arrays of numbers that a variable refers to; an array that an expression
    makes and hands on (an operand, a boolean index array) is a value here, so
    the locations count the arrays of the model, not every array numpy
    makes. *)
Abbreviation loc := nat (only parsing).
Abbreviation store := (list (ndarray num)) (only parsing).

Section Model.
Context {K : Numeric}.


(** Computations read and write the store and may raise; the store at the
    time of the exception is kept. *)
Definition M (A : Type) : Type := store → result A * store.

#[export] Instance M_ret : MRet M := λ A a σ, (Ok a, σ).
#[export] Instance M_bind : MBind M := λ A B f m σ,
  match m σ with
  | (Ok a, σ') => f a σ'
  | (Raise e, σ') => (Raise e, σ')
  end.

Definition lift {A} (r : result A) : M A := λ σ, (r, σ).

Definition alloc (v : ndarray num) : M loc := λ σ, (Ok (length σ), σ ++ [v]).

Definition read (l : loc) : M (ndarray num) := λ σ,
  match σ !! l with
  | Some v => (Ok v, σ)
  | None => (Raise Dangling, σ)
  end.

Definition write (l : loc) (v : ndarray num) : M unit := λ σ,
  match σ !! l with
  | Some _ => (Ok (), <[l:=v]> σ)
  | None => (Raise Dangling, σ)
  end.

(** ** numpy operations *)

(** [np.array(x)]: a copy. *)
Definition np_array (x : loc) : M loc := v ← read x; alloc v.

(** [c * a], [a * c] and [a / c] for a scalar [c]. *)
Definition scale (c : num) (a : ndarray num) : ndarray num := nd_map (fmul c) a.
Definition mul_scalar (a : ndarray num) (c : num) : ndarray num := nd_map (λ v, fmul v c) a.
Definition div_scalar (a : ndarray num) (c : num) : ndarray num := nd_map (λ v, fdiv v c) a.

(** [a - b], [a + b]: arrays of one shape, element by element.  (numpy also
    broadcasts arrays of different shapes where it can; the driver is meant for
    arrays of one shape and the model raises where the shapes differ.) *)
Definition ew (f : num → num → num) (a b : ndarray num) : result (ndarray num) :=
  if decide (shape a = shape b) then Ok (nd_zip f a b) else Raise ValueError.

(** [a > c], [a < c] and [a >= c] for a scalar [c]: boolean arrays. *)
Definition np_gt (a : ndarray num) (c : num) : ndarray bool := nd_map (λ v, flt c v) a.
Definition np_lt (a : ndarray num) (c : num) : ndarray bool := nd_map (λ v, flt v c) a.
Definition np_ge (a : ndarray num) (c : num) : ndarray bool := nd_map (λ v, fle c v) a.

(** [np.zeros_like(a)] and [np.zeros(n)]. *)
Definition zeros_like (a : ndarray num) : ndarray num := nd_map (λ _, of_Z 0) a.

Definition np_zeros (n : Z) : M loc :=
  if decide (n < 0)%Z then lift (Raise ValueError)
  else alloc (mk_nd [Z.to_nat n] (replicate (Z.to_nat n) (of_Z 0))).

(** [np.sum] and [np.max] over all elements; [np.max] of an empty array raises. *)
Definition np_sum (a : ndarray num) : num := foldl fadd (of_Z 0) (data a).

Definition np_max (a : ndarray num) : result num :=
  match data a with
  | [] => Raise ValueError
  | x :: xs => Ok (foldl fmax x xs)
  end.

(** [np.mod] on ints: the sign of the divisor; [np.mod(n, 0)] is 0 (with a warning). *)
Definition np_mod (n s : Z) : Z := if decide (s = 0)%Z then 0%Z else (n `mod` s)%Z.

(** The elements of [l] at the true positions of [m], in order. *)
Fixpoint select {A} (m : list bool) (l : list A) : list A :=
  match m, l with
  | b :: m', x :: l' => if b then x :: select m' l' else select m' l'
  | _, _ => []
  end.

(** [l] with the true positions of [m] overwritten by [vals], in order. *)
Fixpoint scatter {A} (m : list bool) (vals : list A) (l : list A) : list A :=
  match m, l with
  | b :: m', x :: l' =>
      if b then
        match vals with
        | v :: vs => v :: scatter m' vs l'
        | [] => x :: scatter m' [] l'
        end
      else x :: scatter m' vals l'
  | _, _ => l
  end.

(** [a[m]] for a boolean array [m] of the dimensionality of [a]: the shapes
    must agree (numpy 1.13 and later raise an IndexError otherwise). *)
Definition getitem_mask (a : ndarray num) (m : ndarray bool) : result (list num) :=
  if decide (shape m = shape a) then Ok (select (data m) (data a)) else Raise IndexError.

(** [a[m] = vals] in place, [vals] one-dimensional: one value per true position. *)
Definition setitem_mask (a : loc) (m : ndarray bool) (vals : list num) : M unit :=
  v ← read a;
  if decide (shape m = shape v) then
    if decide (length vals = length (select (data m) (data v))) then
      write a (mk_nd (shape v) (scatter (data m) vals (data v)))
    else lift (Raise ValueError)
  else lift (Raise IndexError).

(** [a[m] = c] in place for a scalar [c]. *)
Definition setitem_mask_scalar (a : loc) (m : ndarray bool) (c : num) : M unit :=
  v ← read a;
  if decide (shape m = shape v) then
    write a (mk_nd (shape v) (zip_with (λ (b : bool) x, if b then c else x) (data m) (data v)))
  else lift (Raise IndexError).

(** [a[n] = c] in place, [a] one-dimensional, [n] a non-negative int. *)
Definition setitem_int (a : loc) (n : nat) (c : num) : M unit :=
  v ← read a;
  if decide (n < length (data v)) then write a (mk_nd (shape v) (<[n:=c]> (data v)))
  else lift (Raise IndexError).

(** ** The module's functions *)

(** [np.fft.fftn] and [np.fft.ifftn] raise a ValueError on an array with an
    axis of no element. *)
Definition np_fft_fftn (a : ndarray num) : result (ndarray num) :=
  if decide (0 ∈ shape a) then Raise ValueError else Ok (fftn a).
Definition np_fft_ifftn (a : ndarray num) : result (ndarray num) :=
  if decide (0 ∈ shape a) then Raise ValueError else Ok (ifftn a).

Definition _fft_helper (x : ndarray num) : result (ndarray num) :=
  and_then (np_fft_fftn (fftshift x)) (λ y, Ok (ifftshift y)).
Definition _ifft_helper (x : ndarray num) : result (ndarray num) :=
  and_then (np_fft_ifftn (fftshift x)) (λ y, Ok (ifftshift y)).

Definition pi_modulus (recon_pattern diffracted_pattern : loc) (offset_v : num) : M loc :=
  rp ← read recon_pattern;
  f ← lift (_fft_helper rp);
  diff_tmp ← alloc (div_scalar f (fsqrt (of_Z (Z.of_nat (np_size rp)))));
  dp ← read diffracted_pattern;
  let index := np_gt dp (of_Z 0) in
  pat_sel ← lift (getitem_mask dp index);
  dt ← read diff_tmp;
  tmp_sel ← lift (getitem_mask dt index);
  setitem_mask diff_tmp index
    (zip_with fdiv (zip_with fmul pat_sel tmp_sel) ((λ v, fadd (fabs v) offset_v) <$> tmp_sel));;
  dt ← read diff_tmp;
  b ← lift (_ifft_helper dt);
  alloc (mul_scalar b (fsqrt (of_Z (Z.of_nat (np_size dp))))).

Definition find_support (sample_obj : loc) (sw_sigma sw_threshold : num) : M loc :=
  so ← read sample_obj;
  let sample_obj := nd_map fabs so in
  let conv_fun := gaussian_filter sample_obj sw_sigma in
  conv_max ← lift (np_max conv_fun);
  let s_index := np_ge conv_fun (fmul sw_threshold conv_max) in
  new_sup ← alloc (zeros_like sample_obj);
  setitem_mask_scalar new_sup s_index (of_Z 1);;
  mret new_sup.

Definition pi_support (sample_obj : loc) (index_v : ndarray bool) : M loc :=
  sample_obj ← np_array sample_obj;
  setitem_mask_scalar sample_obj index_v (of_Z 0);;
  mret sample_obj.

Definition cal_relative_error (x_old x_new : loc) : M num :=
  xo ← read x_old;
  xn ← read x_new;
  d ← lift (ew fsub xn xo);
  mret (fdiv (norm (data d)) (norm (data xo))).

Definition cal_diff_error (sample_obj diffracted_pattern : loc) : M num :=
  so ← read sample_obj;
  f ← lift (_fft_helper so);
  new_diff ← alloc (div_scalar (nd_map fabs f) (fsqrt (of_Z (Z.of_nat (np_size so)))));
  cal_relative_error diffracted_pattern new_diff.

(** ** The driver *)

(** [str.lower] on the ASCII letters. *)
Definition lower_ascii (c : ascii) : ascii :=
  let n := nat_of_ascii c in
  if (65 <=? n) && (n <=? 90) then ascii_of_nat (n + 32) else c.

Fixpoint lower (s : string) : string :=
  match s with
  | EmptyString => EmptyString
  | String c s' => String (lower_ascii c) (lower s')
  end.

(** The keyword arguments of [cdi_recon]. *)
Record config := {
  beta : num;
  start_avg : num;
  pi_modulus_flag : string;
  sw_flag : bool;
  sw_sigma : num;
  sw_threshold : num;
  sw_start : num;
  sw_end : num;
  sw_step : Z;
  n_iterations : Z;
}.

(** The error arrays, as the returned dict holds them. *)
Record error_dict := { obj_error : loc; diff_error : loc; sup_error : loc }.

(** The variables bound once at entry. *)
Record env := {
  diffracted_pattern : loc;   (* the copy made at entry *)
  sample_obj : loc;           (* the caller's array *)
  errors : error_dict;
}.

(** The variables rebound in the loop. *)
Record locals := {
  sup : loc;
  sup_out_index : ndarray bool;
  sup_old : loc;
  obj_avg : loc;
  avg_i : Z;
}.

(** [a / b] on Python floats and ints: a zero divisor raises. *)
Definition truediv (a b : num) : result num :=
  if fis_zero b then Raise ZeroDivisionError else Ok (fdiv a b).

(** The two mixing coefficients, bound at entry (lines 353-354). *)
Record gammas := { gamma_1 : num; gamma_2 : num }.

(** [if pi_modulus_flag.lower() == 'real': x = np.abs(x)]. *)
Definition real_mode (c : config) (x : loc) : M loc :=
  if String.eqb (lower (pi_modulus_flag c)) "real" then
    v ← read x; alloc (nd_map fabs v)
  else mret x.

(** [c1 * a - c2 * b]. *)
Definition mix (c1 : num) (a : loc) (c2 : num) (b : loc) : M loc :=
  va ← read a;
  vb ← read b;
  r ← lift (ew fsub (scale c1 va) (scale c2 vb));
  alloc r.

(** The dtype of an array, read off its elements: complex128 when they are
    complex numbers, float64 when they are floats (the elements of an array
    are of one kind). *)
Definition is_complex_array (a : ndarray num) : bool := forallb fis_complex (data a).
Definition is_float_array (a : ndarray num) : bool :=
  forallb (λ v, negb (fis_complex v)) (data a).

(** [x += y], in place: the sum is written into [x], whose dtype does not
    change; numpy refuses to cast the complex sum of a float64 [x] and a
    complex [y] to float64 (a TypeError, raised before the shapes are
    looked at). *)
Definition iadd (x : loc) (y : ndarray num) : M () :=
  vx ← read x;
  if is_complex_array vx || is_float_array y then
    r ← lift (ew fadd vx y);
    write x r
  else lift (Raise TypeError).

(** Is shrinkwrap due at iteration [n]? *)
Definition sw_due (c : config) (n : nat) : bool :=
  sw_flag c
  && fle (fmul (sw_start c) (of_Z (n_iterations c))) (of_Z (Z.of_nat n))
  && fle (of_Z (Z.of_nat n)) (fmul (sw_end c) (of_Z (n_iterations c)))
  && bool_decide (np_mod (Z.of_nat n) (sw_step c) = 0%Z).

(** Does iteration [n] enter the average? *)
Definition avg_due (c : config) (n : nat) : bool :=
  flt (fmul (start_avg c) (of_Z (n_iterations c))) (of_Z (Z.of_nat n)).

(** Lines 370-386: the object is updated in place; the copy made of it
    before the update is returned. *)
Definition update_object (c : config) (g : gammas) (e : env) (st : locals) : M loc :=
  obj_old ← np_array (sample_obj e);
  obj_a ← pi_modulus (sample_obj e) (diffracted_pattern e) eps12;
  obj_a ← real_mode c obj_a;
  obj_a ← mix (fadd (of_Z 1) (gamma_2 g)) obj_a (gamma_2 g) (sample_obj e);
  obj_a ← pi_support obj_a (sup_out_index st);
  obj_b ← pi_support (sample_obj e) (sup_out_index st);
  obj_b ← mix (fadd (of_Z 1) (gamma_1 g)) obj_b (gamma_1 g) (sample_obj e);
  obj_b ← pi_modulus obj_b (diffracted_pattern e) eps12;
  obj_b ← real_mode c obj_b;
  va ← read obj_a;
  vb ← read obj_b;
  d ← lift (ew fsub va vb);
  iadd (sample_obj e) (scale (beta c) d);;
  mret obj_old.

(** Lines 389-390. *)
Definition record_errors (e : env) (n : nat) (obj_old : loc) : M () :=
  err ← cal_relative_error obj_old (sample_obj e);
  setitem_int (obj_error (errors e)) n err;;
  err ← cal_diff_error (sample_obj e) (diffracted_pattern e);
  setitem_int (diff_error (errors e)) n err.

(** Lines 392-399. *)
Definition shrinkwrap (c : config) (e : env) (n : nat) (st : locals) : M locals :=
  if sw_due c n then
    new_sup ← find_support (sample_obj e) (sw_sigma c) (sw_threshold c);
    vs ← read new_sup;
    so ← read (sup_old st);
    setitem_int (sup_error (errors e)) n (np_sum so);;
    new_old ← np_array new_sup;
    mret {| sup := new_sup; sup_out_index := np_lt vs (of_Z 1);
            sup_old := new_old; obj_avg := obj_avg st; avg_i := avg_i st |}
  else mret st.

(** Lines 401-403. *)
Definition average (c : config) (e : env) (n : nat) (st : locals) : M locals :=
  if avg_due c n then
    so ← read (sample_obj e);
    iadd (obj_avg st) so;;
    mret {| sup := sup st; sup_out_index := sup_out_index st; sup_old := sup_old st;
            obj_avg := obj_avg st; avg_i := (avg_i st + 1)%Z |}
  else mret st.

(** The body of the loop. *)
Definition iteration (c : config) (g : gammas) (e : env) (n : nat) (st : locals)
  : M locals :=
  obj_old ← update_object c g e st;
  record_errors e n obj_old;;
  st ← shrinkwrap c e n st;
  average c e n st.

(** [for n in ns: st = body(n, st)]. *)
Fixpoint for_each {S} (ns : list nat) (body : nat → S → M S) (st : S) : M S :=
  match ns with
  | [] => mret st
  | n :: ns' => st' ← body n st; for_each ns' body st'
  end.

(** Lines 351-366: the state before the first iteration. *)
Definition cdi_entry (diffracted_pattern sample_obj sup : loc) (c : config)
  : M (gammas * env * locals) :=
  diffracted_pattern ← np_array diffracted_pattern;
  gamma_1 ← lift (truediv (of_Z (-1)) (beta c));
  gamma_2 ← lift (truediv (of_Z 1) (beta c));
  vs ← read sup;
  let sup_out_index := np_lt vs (of_Z 1) in
  obj_error ← np_zeros (n_iterations c);
  diff_error ← np_zeros (n_iterations c);
  sup_error ← np_zeros (n_iterations c);
  dp ← read diffracted_pattern;
  sup_old ← alloc (zeros_like dp);
  obj_avg ← alloc (nd_map astype_complex (zeros_like dp));
  mret ({| gamma_1 := gamma_1; gamma_2 := gamma_2 |},
        {| diffracted_pattern := diffracted_pattern; sample_obj := sample_obj;
           errors := {| obj_error := obj_error; diff_error := diff_error;
                        sup_error := sup_error |} |},
        {| sup := sup; sup_out_index := sup_out_index; sup_old := sup_old;
           obj_avg := obj_avg; avg_i := 0 |}).

(** The state after the first [k] iterations. *)
Definition cdi_prefix (diffracted_pattern sample_obj sup : loc) (c : config) (k : nat)
  : M (env * locals) :=
  '(g, e, st) ← cdi_entry diffracted_pattern sample_obj sup c;
  st ← for_each (seq 0 k) (iteration c g e) st;
  mret (e, st).

(** Lines 408-419: the average and the returned pair. *)
Definition cdi_finish (e : env) (st : locals) : M (loc * error_dict) :=
  avg ← read (obj_avg st);
  obj_avg ← alloc (div_scalar avg (of_Z (avg_i st)));
  mret (obj_avg, errors e).

Definition cdi_recon (diffracted_pattern sample_obj sup : loc) (c : config)
  : M (loc * error_dict) :=
  '(e, st) ← cdi_prefix diffracted_pattern sample_obj sup c (Z.to_nat (n_iterations c));
  cdi_finish e st.

End Model.

(** ** The values the functions compute *)

Section Values.
Context {K : Numeric}.

(** The arrays the two transforms return when they return. *)
Definition fft_val (x : ndarray num) : ndarray num := ifftshift (fftn (fftshift x)).
Definition ifft_val (x : ndarray num) : ndarray num := ifftshift (ifftn (fftshift x)).

(** The modulus constraint at one Fourier-space location: where the measured
    pattern [p] is positive the value [v] takes the magnitude [p] and keeps its
    phase; elsewhere it is kept. *)
Definition constrain (offset_v p v : num) : num :=
  if flt (of_Z 0) p then fdiv (fmul p v) (fadd (fabs v) offset_v) else v.

Definition fourier_constrained (offset_v : num) (dp dt : ndarray num) : ndarray num :=
  mk_nd (shape dt) (zip_with (constrain offset_v) (data dp) (data dt)).

(** What [diff_tmp] holds before and after the masked assignment of
    [pi_modulus], and the array returned. *)
Definition fourier_scaled (rp : ndarray num) : ndarray num :=
  div_scalar (fft_val rp) (fsqrt (of_Z (Z.of_nat (np_size rp)))).

Definition pi_modulus_val (rp dp : ndarray num) (offset_v : num) : ndarray num :=
  mul_scalar (ifft_val (fourier_constrained offset_v dp (fourier_scaled rp)))
             (fsqrt (of_Z (Z.of_nat (np_size dp)))).

(** The array [pi_support] returns. *)
Definition pi_support_val (x : ndarray num) (index_v : ndarray bool) : ndarray num :=
  mk_nd (shape x) (zip_with (λ (b : bool) v, if b then of_Z 0 else v) (data index_v) (data x)).

(** The smoothed magnitude of [find_support] and the mask cut from it at
    [t * mx]. *)
Definition smoothed (so : ndarray num) (sigma : num) : ndarray num :=
  gaussian_filter (nd_map fabs so) sigma.

Definition threshold_mask (conv : ndarray num) (t mx : num) : ndarray num :=
  nd_map (λ c, if fle (fmul t mx) c then of_Z 1 else of_Z 0) conv.

Definition find_support_val (so : ndarray num) (sigma t : num) : ndarray num :=
  match np_max (smoothed so sigma) with
  | Ok mx => threshold_mask (smoothed so sigma) t mx
  | Raise _ => zeros_like so
  end.

(** The two error measures. *)
Definition relative_error_val (x_old x_new : ndarray num) : num :=
  fdiv (norm (data (nd_zip fsub x_new x_old))) (norm (data x_old)).

Definition diff_error_val (obj dp : ndarray num) : num :=
  relative_error_val dp
    (div_scalar (nd_map fabs (fft_val obj)) (fsqrt (of_Z (Z.of_nat (np_size obj))))).

(** *** The difference-map rule, as the specification words it *)

(** The modulus projection, with the magnitude taken in real mode. *)
Definition modulus_projection (real : bool) (pattern object : ndarray num) : ndarray num :=
  let r := pi_modulus_val object pattern eps12 in
  if real then nd_map fabs r else r.

(** [(1 + gamma) * x - gamma * object]. *)
Definition mixed (gamma : num) (x object : ndarray num) : ndarray num :=
  nd_zip fsub (scale (fadd (of_Z 1) gamma) x) (scale gamma object).

(** One update of the object with feedback parameter [beta],
    [gamma_1 = -1/beta] and [gamma_2 = 1/beta]. *)
Definition difference_map (beta : num) (real : bool) (pattern : ndarray num)
    (outside : ndarray bool) (object : ndarray num) : ndarray num :=
  let gamma_1 := fdiv (of_Z (-1)) beta in
  let gamma_2 := fdiv (of_Z 1) beta in
  let obj_a := modulus_projection real pattern object in
  let obj_a := mixed gamma_2 obj_a object in
  let obj_a := pi_support_val obj_a outside in
  let obj_b := pi_support_val object outside in
  let obj_b := mixed gamma_1 obj_b object in
  let obj_b := modulus_projection real pattern obj_b in
  nd_zip fadd object (scale beta (nd_zip fsub obj_a obj_b)).

(** *** The state of the loop, as values *)

Record astate := {
  a_obj : ndarray num;            (* the object *)
  a_idx : ndarray bool;           (* sup_out_index *)
  a_sup_old : ndarray num;        (* sup_old *)
  a_avg : ndarray num;            (* obj_avg *)
  a_avg_i : Z;
  a_obj_error : list num;
  a_diff_error : list num;
  a_sup_error : list num;
}.

Definition is_real (c : config) : bool := String.eqb (lower (pi_modulus_flag c)) "real".

Definition init_val (c : config) (pattern object support : ndarray num) : astate := {|
  a_obj := object;
  a_idx := np_lt support (of_Z 1);
  a_sup_old := zeros_like pattern;
  a_avg := nd_map astype_complex (zeros_like pattern);
  a_avg_i := 0;
  a_obj_error := replicate (Z.to_nat (n_iterations c)) (of_Z 0);
  a_diff_error := replicate (Z.to_nat (n_iterations c)) (of_Z 0);
  a_sup_error := replicate (Z.to_nat (n_iterations c)) (of_Z 0);
|}.

Definition step_val (c : config) (pattern : ndarray num) (a : astate) (n : nat) : astate :=
  let obj := difference_map (beta c) (is_real c) pattern (a_idx a) (a_obj a) in
  let new_sup := find_support_val obj (sw_sigma c) (sw_threshold c) in
  {| a_obj := obj;
     a_idx := if sw_due c n then np_lt new_sup (of_Z 1) else a_idx a;
     a_sup_old := if sw_due c n then new_sup else a_sup_old a;
     a_avg := if avg_due c n then nd_zip fadd (a_avg a) obj else a_avg a;
     a_avg_i := if avg_due c n then (a_avg_i a + 1)%Z else a_avg_i a;
     a_obj_error := <[n := relative_error_val (a_obj a) obj]> (a_obj_error a);
     a_diff_error := <[n := diff_error_val obj pattern]> (a_diff_error a);
     a_sup_error := if sw_due c n then <[n := np_sum (a_sup_old a)]> (a_sup_error a)
                    else a_sup_error a |}.

(** The state after the first [k] iterations. *)
Definition state_after (c : config) (pattern object support : ndarray num) (k : nat) : astate :=
  foldl (step_val c pattern) (init_val c pattern object support) (seq 0 k).

(** The last iteration before [n] at which shrinkwrap was due, and the
    support computed there (an array of zeros when there is none). *)
Fixpoint last_due (c : config) (n : nat) : option nat :=
  match n with
  | 0 => None
  | S m => if sw_due c m then Some m else last_due c m
  end.

Definition prev_support (c : config) (pattern object support : ndarray num) (n : nat)
  : ndarray num :=
  match last_due c n with
  | None => zeros_like pattern
  | Some m => find_support_val (a_obj (state_after c pattern object support (S m)))
                (sw_sigma c) (sw_threshold c)
  end.

End Values.

(** ** An instance over IEEE-754 binary64 *)

Module Float64.

(** A scalar is a float64 or a complex128, as the elements of a numpy array
    of that dtype are. *)
Inductive t :=
  | Re (x : float)
  | Cx (re im : float).

Definition re_part (a : t) : float := match a with Re x => x | Cx x _ => x end.
Definition im_part (a : t) : float := match a with Re _ => 0%float | Cx _ y => y end.

(** An int as a float64, for ints below 2^63 in magnitude. *)
Definition float_of_Z (z : Z) : float :=
  if (z <? 0)%Z then (- PrimFloat.of_uint63 (Uint63.of_Z (- z)))%float
  else PrimFloat.of_uint63 (Uint63.of_Z z).

(** Two float64 give a float64; otherwise both operands are promoted to
    complex128. *)
Definition binop (fr : float → float → float)
    (fc : float → float → float → float → float * float) (a b : t) : t :=
  match a, b with
  | Re x, Re y => Re (fr x y)
  | _, _ => let '(x, y) := fc (re_part a) (im_part a) (re_part b) (im_part b) in Cx x y
  end.

Definition add : t → t → t :=
  binop PrimFloat.add (λ ar ai br bi, (ar + br, ai + bi)%float).
Definition sub : t → t → t :=
  binop PrimFloat.sub (λ ar ai br bi, (ar - br, ai - bi)%float).
Definition mul : t → t → t :=
  binop PrimFloat.mul (λ ar ai br bi, (ar * br - ai * bi, ar * bi + ai * br)%float).

(** Complex division as numpy's loops do it (Smith's method). *)
Definition cdiv (ar ai br bi : float) : float * float :=
  let br_abs := PrimFloat.abs br in
  let bi_abs := PrimFloat.abs bi in
  if (bi_abs <=? br_abs)%float then
    if (br_abs =? 0)%float && (bi_abs =? 0)%float then (ar / br_abs, ai / br_abs)%float
    else
      let rat := (bi / br)%float in
      let scl := (1 / (br + bi * rat))%float in
      ((ar + ai * rat) * scl, (ai - ar * rat) * scl)%float
  else
    let rat := (br / bi)%float in
    let scl := (1 / (bi + br * rat))%float in
    ((ar * rat + ai) * scl, (ai * rat - ar) * scl)%float.

Definition div : t → t → t := binop PrimFloat.div cdiv.

(** The modulus; of a complex128 it is taken as [sqrt (re^2 + im^2)]. *)
Definition abs (a : t) : t :=
  match a with
  | Re x => Re (PrimFloat.abs x)
  | Cx x y => Re (PrimFloat.sqrt (x * x + y * y))
  end.

(** The module takes square roots of float64 only. *)
Definition sqrt (a : t) : t :=
  match a with
  | Re x => Re (PrimFloat.sqrt x)
  | Cx _ _ => Cx nan nan
  end.

(** The module compares float64 only. *)
Definition ltb (a b : t) : bool := (re_part a <? re_part b)%float.
Definition leb (a b : t) : bool := (re_part a <=? re_part b)%float.

(** [np.max] keeps a nan. *)
Definition max (a b : t) : t :=
  if PrimFloat.is_nan (re_part a) then a
  else if PrimFloat.is_nan (re_part b) then b
  else if ltb a b then b else a.

Definition to_complex (a : t) : t := Cx (re_part a) (im_part a).

Definition is_complex (a : t) : bool := match a with Re _ => false | Cx _ _ => true end.

(** [a == 0]: both parts compare equal to zero. *)
Definition is_zero (a : t) : bool := (re_part a =? 0)%float && (im_part a =? 0)%float.

(** The Frobenius norm: the root of the sum of the squared parts. *)
Definition frobenius (l : list t) : t :=
  Re (PrimFloat.sqrt
        (foldl (λ s a, s + re_part a * re_part a)%float 0%float l
         + foldl (λ s a, s + im_part a * im_part a)%float 0%float l)).

(** The roots of unity [exp(-/+ 2 pi i k / n)] that are exact in binary64:
    those of the axis lengths 1, 2 and 4.  For another length the entry is
    nan, and so is the transform. *)
Definition twiddle (inverse : bool) (n k : nat) : t :=
  match n, k `mod` n with
  | 1, _ => Re 1
  | 2, 0 | 4, 0 => Re 1
  | 2, 1 | 4, 2 => Re (-1)
  | 4, 1 => Cx 0 (if inverse then 1 else -1)
  | 4, 3 => Cx 0 (if inverse then -1 else 1)
  | _, _ => Re nan
  end.

(** The discrete Fourier sum along the first axis, the blocks of that axis
    being the elements of [xs]: [out k = sum_j w^(j k) * xs j]. *)
Definition dft_blocks (inverse : bool) (sz : nat) (xs : list (list t)) : list (list t) :=
  (λ k, foldl (zip_with add) (replicate sz (Re 0))
          (imap (λ j x, mul (twiddle inverse (length xs) (j * k)) <$> x) xs))
  <$> seq 0 (length xs).

(** The sum along every axis of a row-major buffer of shape [sh]. *)
Fixpoint dftn (inverse : bool) (sh : list nat) (d : list t) : list t :=
  match sh with
  | [] => d
  | n :: rest =>
      let sz := foldr Nat.mul 1 rest in
      mjoin (dft_blocks inverse sz (dftn inverse rest <$> chunks sz n d))
  end.

Definition dft (a : ndarray t) : ndarray t :=
  mk_nd (shape a) (to_complex <$> dftn false (shape a) (data a)).

Definition idft (a : ndarray t) : ndarray t :=
  mk_nd (shape a)
    ((λ v, to_complex (div v (Re (float_of_Z (Z.of_nat (np_size a)))))) <$> dftn true (shape a) (data a)).

(** scipy skips an axis whose sigma is at most 1e-15 and truncates the
    Gaussian kernel at radius [int(4 sigma + 0.5)]: for sigma below 1/8 the
    kernel is the single weight 1 and the filter returns its input.  For a
    larger sigma the entries are nan. *)
Definition smooth (a : ndarray t) (sigma : t) : ndarray t :=
  if ltb sigma (Re 0.125) then a else nd_map (λ _, Re nan) a.

#[global] Instance kernel : Numeric := {|
  num := t;
  of_Z z := Re (float_of_Z z);
  fadd := add; fsub := sub; fmul := mul; fdiv := div;
  fabs := abs; fsqrt := sqrt;
  flt := ltb; fle := leb; fmax := max;
  astype_complex := to_complex;
  fis_complex := is_complex;
  fis_zero := is_zero;
  eps12 := Re 0x1.19799812dea11p-40;
  norm := frobenius;
  fftn := dft; ifftn := idft;
  gaussian_filter := smooth;
|}.

(** A real array and a complex array from integer entries. *)
Definition reals (sh : list nat) (l : list Z) : ndarray t :=
  mk_nd sh ((λ z, Re (float_of_Z z)) <$> l).
Definition complexes (sh : list nat) (l : list (Z * Z)) : ndarray t :=
  mk_nd sh ((λ z, Cx (float_of_Z z.1) (float_of_Z z.2)) <$> l).

End Float64.


(** ** Definitions for the proofs *)

Section ProofDefinitions.
Context {K : Numeric}.
Implicit Types (σ : store) (l : loc) (P O S : ndarray num) (st : locals).

(** [wp m σ Q]: from [σ] the computation [m] returns, with a value and a
    store that satisfy [Q]. *)
Definition wp {A} (m : M A) (σ : store) (Q : A → store → Prop) : Prop :=
  ∃ a σ', m σ = (Ok a, σ') ∧ Q a σ'.

(** [raises m σ x Q]: from [σ] the computation [m] raises [x], leaving a
    store that satisfies [Q]. *)
Definition raises {A} (m : M A) σ (x : exn) (Q : store → Prop) : Prop :=
  ∃ σ', m σ = (Raise x, σ') ∧ Q σ'.

(** From [σ] to [σ'] no array is lost, and the arrays below [n0] other than
    the one at [lo] are as they were. *)
Definition preserved (n0 : nat) (lo : loc) σ σ' : Prop :=
  length σ ≤ length σ' ∧ ∀ l, l < n0 → l ≠ lo → σ' !! l = σ !! l.

(** [frames n0 lo m Q]: from a store of at least [n0] arrays, [m] writes no
    array below [n0] but the one at [lo], whether it returns or raises; what
    it returns satisfies [Q]. *)
Definition frames {A} (n0 : nat) (lo : loc) (m : M A) (Q : A → Prop) : Prop :=
  ∀ σ r σ', n0 ≤ length σ → m σ = (r, σ') →
    preserved n0 lo σ σ' ∧ ∀ a, r = Ok a → Q a.

(** The mixing coefficients a call with a non-zero [beta] binds. *)
Definition the_gammas (c : config) : gammas :=
  {| gamma_1 := fdiv (of_Z (-1)) (beta c); gamma_2 := fdiv (of_Z 1) (beta c) |}.

(** The variables bound at entry, the store having [n0] arrays when the
    call starts: the copy of the pattern and the three error arrays are the
    first arrays the store receives. *)
Definition the_env (n0 : nat) (lo : loc) : env :=
  {| diffracted_pattern := n0; sample_obj := lo;
     errors := {| obj_error := n0 + 1; diff_error := n0 + 2; sup_error := n0 + 3 |} |}.

(** The error arrays were made by the call, and the object is the array at
    [lo]. *)
Definition env_ok (n0 : nat) (lo : loc) (e : env) : Prop :=
  sample_obj e = lo ∧ n0 ≤ obj_error (errors e) ∧ n0 ≤ diff_error (errors e)
  ∧ n0 ≤ sup_error (errors e).

(** The store after the lines before the loop. *)
Definition entry_store (c : config) σ P : store :=
  let z := mk_nd [Z.to_nat (n_iterations c)]
             (replicate (Z.to_nat (n_iterations c)) (of_Z 0)) in
  σ ++ [P; z; z; z; zeros_like P; nd_map astype_complex (zeros_like P)].

Definition entry_locals (c : config) σ (ls : loc) S : locals :=
  {| sup := ls; sup_out_index := np_lt S (of_Z 1); sup_old := length σ + 4;
     obj_avg := length σ + 5; avg_i := 0 |}.

(** The configuration [c] with another mode flag. *)
Definition with_flag (c : config) (flag : string) : config :=
  {| beta := beta c; start_avg := start_avg c; pi_modulus_flag := flag;
     sw_flag := sw_flag c; sw_sigma := sw_sigma c; sw_threshold := sw_threshold c;
     sw_start := sw_start c; sw_end := sw_end c; sw_step := sw_step c;
     n_iterations := n_iterations c |}.

(** The shapes an iteration relies on. *)
Record good P (N : nat) (a : astate) : Prop := {
  good_obj_shape : shape (a_obj a) = shape P;
  good_obj_wf : wf (a_obj a);
  good_idx_shape : shape (a_idx a) = shape P;
  good_idx_wf : wf (a_idx a);
  good_avg_shape : shape (a_avg a) = shape P;
  good_oe : length (a_obj_error a) = N;
  good_de : length (a_diff_error a) = N;
  good_se : length (a_sup_error a) = N;
  good_obj_complex : is_complex_array (a_obj a) = true;
  good_avg_complex : is_complex_array (a_avg a) = true;
}.

(** The store [σ] holds the state [a]: the caller's object at [lo], below
    the [n0] arrays the store had when the call started, and the arrays of
    the call from [n0] on. *)
Record rep (n0 : nat) (lo : loc) (N : nat) P st (a : astate) σ : Prop := {
  rep_lo : lo < n0;
  rep_len : n0 + 6 ≤ length σ;
  rep_obj : σ !! lo = Some (a_obj a);
  rep_pat : σ !! n0 = Some P;
  rep_oe : σ !! (n0 + 1) = Some (mk_nd [N] (a_obj_error a));
  rep_de : σ !! (n0 + 2) = Some (mk_nd [N] (a_diff_error a));
  rep_se : σ !! (n0 + 3) = Some (mk_nd [N] (a_sup_error a));
  rep_avg_loc : obj_avg st = n0 + 5;
  rep_avg : σ !! (n0 + 5) = Some (a_avg a);
  rep_old_loc : n0 + 4 ≤ sup_old st ∧ sup_old st ≠ n0 + 5;
  rep_old : σ !! sup_old st = Some (a_sup_old a);
  rep_idx : sup_out_index st = a_idx a;
  rep_avg_i : avg_i st = a_avg_i a;
  rep_sup : sup st < length σ ∧ (sup st < n0 ∨ n0 + 6 ≤ sup st);
}.

(** The caller passes three arrays of one shape, none of them empty, and
    the object is an array of complex numbers. *)
Record inputs_ok σ (lp lo ls : loc) P O S : Prop := {
  in_pattern : σ !! lp = Some P;
  in_object : σ !! lo = Some O;
  in_support : σ !! ls = Some S;
  in_object_shape : shape O = shape P;
  in_support_shape : shape S = shape P;
  in_pattern_wf : wf P;
  in_object_wf : wf O;
  in_support_wf : wf S;
  in_nonempty : data P ≠ [];
  in_object_complex : is_complex_array O = true;
}.

End ProofDefinitions.

(** ** Concrete calls *)

(** A two-dimensional complex array on which the binary64 transforms are
    exact. *)
Definition x_2x4 : ndarray Float64.t :=
  Float64.complexes [2; 4]
    [(1, 2); (3, -1); (0, 5); (-2, 2); (4, 4); (7, 0); (-3, -6); (1, 1)]%Z.

(** The complex array [0.1, 0.2]. *)
Definition x_tenths : ndarray Float64.t :=
  mk_nd [2] [Float64.Cx 0x1.999999999999ap-4 0; Float64.Cx 0x1.999999999999ap-3 0].

(** A reference array of zero norm, an array that differs from it, and an
    accumulator that no iteration entered. *)
Definition σ_zero : list (ndarray Float64.t) :=
  [Float64.reals [2] [0; 0]%Z; Float64.reals [2] [1; 1]%Z;
   Float64.complexes [2] [(0, 0); (0, 0)]%Z].

Definition st_zero : locals :=
  {| sup := 0; sup_out_index := mk_nd [2] [false; false]; sup_old := 0;
     obj_avg := 2; avg_i := 0 |}.

(** The call of the examples: a 2 x 2 pattern, object and support. *)
Definition σ_2x2 : list (ndarray Float64.t) :=
  [Float64.reals [2; 2] [4; 0; 2; 0]%Z;
   Float64.complexes [2; 2] [(1, 0); (2, 1); (0, 0); (1, -1)]%Z;
   Float64.reals [2; 2] [1; 1; 0; 1]%Z].

(** The defaults of [cdi_recon], but for a Gaussian width of 0.1, a
    shrinkwrap window of 0.2 to 0.8 with step 1, and the given mode flag and
    iteration count. *)
Definition config_2x2 (flag : string) (n : Z) : config :=
  {| beta := Float64.Re 0x1.2666666666666p+0;
     start_avg := Float64.Re 0x1.999999999999ap-1;
     pi_modulus_flag := flag;
     sw_flag := true;
     sw_sigma := Float64.Re 0x1.999999999999ap-4;
     sw_threshold := Float64.Re 0x1.999999999999ap-4;
     sw_start := Float64.Re 0x1.999999999999ap-3;
     sw_end := Float64.Re 0x1.999999999999ap-1;
     sw_step := 1;
     n_iterations := n |}.

(** A configuration with a negative Gaussian width, an averaging fraction
    above 1 and a shrinkwrap window that starts after its end. *)
Definition config_invalid : config :=
  {| beta := Float64.Re 0x1.2666666666666p+0;
     start_avg := Float64.Re 1.5;
     pi_modulus_flag := "Complex";
     sw_flag := true;
     sw_sigma := Float64.Re (-1);
     sw_threshold := Float64.Re 0x1.999999999999ap-4;
     sw_start := Float64.Re 0x1.999999999999ap-1;
     sw_end := Float64.Re 0x1.999999999999ap-3;
     sw_step := 10;
     n_iterations := 2 |}.

(** A support of shape (2, 1) for a pattern and an object of shape (2, 2). *)
Definition σ_mismatch : list (ndarray Float64.t) :=
  [Float64.reals [2; 2] [4; 0; 2; 0]%Z;
   Float64.complexes [2; 2] [(1, 0); (2, 1); (0, 0); (1, -1)]%Z;
   Float64.reals [2; 1] [1; 0]%Z].

(** The configuration of the examples with [beta = 0]. *)
Definition config_zero_beta : config :=
  {| beta := Float64.Re 0;
     start_avg := Float64.Re 0x1.999999999999ap-1;
     pi_modulus_flag := "Complex";
     sw_flag := true;
     sw_sigma := Float64.Re 0x1.999999999999ap-4;
     sw_threshold := Float64.Re 0x1.999999999999ap-4;
     sw_start := Float64.Re 0x1.999999999999ap-3;
     sw_end := Float64.Re 0x1.999999999999ap-1;
     sw_step := 1;
     n_iterations := 3 |}.

(** The configuration of the examples with shrinkwrap switched off. *)
Definition config_sw_off : config :=
  {| beta := Float64.Re 0x1.2666666666666p+0;
     start_avg := Float64.Re 0.5;
     pi_modulus_flag := "Complex";
     sw_flag := false;
     sw_sigma := Float64.Re 0.5;
     sw_threshold := Float64.Re 0.5;
     sw_start := Float64.Re 0.25;
     sw_end := Float64.Re 0.75;
     sw_step := 1;
     n_iterations := 3 |}.

(** ** The box support: [generate_box_support] *)

(** A Python [slice(start, stop)] with int bounds and no step. *)
Record slice := { slice_start : Z; slice_stop : Z }.

(** A bound of a slice on an axis of [n] elements, as [slice.indices(n)]
    gives it: a negative bound counts from the end, and the outcome is clipped
    to [0 .. n]. *)
Definition slice_bound (n : nat) (k : Z) : nat :=
  if decide (k < 0)%Z then Z.to_nat (k + Z.of_nat n) else Z.to_nat k `min` n.

(** The row-major buffer [d] of shape [sh] with [c] written wherever the
    index along each leading axis lies in the slice given for it; an axis with
    no slice is taken whole. *)
Fixpoint fill_slices {A} (slcs : list slice) (sh : list nat) (c : A) (d : list A) : list A :=
  match slcs, sh with
  | [], _ => (λ _, c) <$> d
  | _ :: _, [] => d
  | s :: slcs', n :: rest =>
      mjoin (imap (λ i blk,
                     if decide (slice_bound n (slice_start s) ≤ i
                                ∧ i < slice_bound n (slice_stop s))
                     then fill_slices slcs' rest c blk else blk)
               (chunks (foldr Nat.mul 1 rest) n d))
  end.

(** The offset of a multi-index in a row-major buffer of shape [sh]. *)
Fixpoint ravel (sh idx : list nat) : nat :=
  match sh, idx with
  | _ :: rest, i :: idx' => i * foldr Nat.mul 1 rest + ravel rest idx'
  | _, _ => 0
  end.

(** [a[i1, ..., ik]] for non-negative ints, one for each axis and each below
    the length of its axis. *)
Definition nd_get {A} (a : ndarray A) (idx : list nat) : option A :=
  if decide (Forall2 lt idx (shape a)) then data a !! ravel (shape a) idx else None.

Section BoxSupport.
Context {K : Numeric}.

(** [np.zeros(shape)] for a list of ints: a negative dimension, or more than
    32 of them, raises a ValueError. *)
Definition np_zeros_shape (sh : list Z) : M loc :=
  if decide (Forall (λ n, 0 ≤ n)%Z sh ∧ length sh ≤ 32) then
    alloc (mk_nd (Z.to_nat <$> sh) (replicate (foldr Nat.mul 1 (Z.to_nat <$> sh)) (of_Z 0)))
  else lift (Raise ValueError).

(** [a[l] = c] in place for a Python list [l] of slices.  numpy (1.13 to
    1.22) reads a list of fewer than 32 items that holds a slice as the tuple
    of its items, one index for each leading axis, and more indices than axes
    raise an IndexError; a list of 32 items or more is not unpacked, and as
    an array of slices it is no index (an IndexError); the empty list is an
    empty array of ints, which indexes the first axis and selects nothing,
    and raises an IndexError on an array of no axis. *)
Definition setitem_slices (a : loc) (l : list slice) (c : num) : M unit :=
  v ← read a;
  match l with
  | [] => if decide (shape v = []) then lift (Raise IndexError) else mret ()
  | _ :: _ =>
      if decide (length l < 32 ∧ length l ≤ length (shape v)) then
        write a (mk_nd (shape v) (fill_slices l (shape v) c (data v)))
      else lift (Raise IndexError)
  end.

(** Lines 248-267, for an int radius ([//] is the floor division). *)
Definition generate_box_support (sup_radius : Z) (shape_v : list Z) : M loc :=
  let slc_list := (λ s, {| slice_start := s `div` 2 - sup_radius;
                           slice_stop := s `div` 2 + sup_radius |}) <$> shape_v in
  sup ← np_zeros_shape shape_v;
  setitem_slices sup slc_list (of_Z 1);;
  mret sup.

End BoxSupport.

(** * Lemmas *)

(** ** Shifts *)

Section RollLemmas.
Context {A : Type}.
Implicit Types (l d : list A) (k : Z).

Lemma roll_length k l : length (roll k l) = length l.
Proof.
  unfold roll. destruct (length l) as [|n] eqn:E; [done|].
  rewrite length_app, length_drop, length_take. lia.
Qed.

Lemma roll_fmap {B} (f : A → B) k l : roll k (f <$> l) = f <$> roll k l.
Proof.
  unfold roll. rewrite length_fmap. destruct (length l); [done|].
  by rewrite fmap_app, fmap_drop, fmap_take.
Qed.

Lemma roll_Forall (P : A → Prop) k l : Forall P l → Forall P (roll k l).
Proof.
  intros H. unfold roll. destruct (length l); [done|].
  apply Forall_app; split; [by apply Forall_drop | by apply Forall_take].
Qed.

(** Rolling back by the same amount undoes a roll, for lists of every
    length, odd ones included. *)
Lemma roll_inv k l : roll (- k) (roll k l) = l.
Proof.
  unfold roll at 1. rewrite roll_length. unfold roll.
  destruct (length l) as [|n] eqn:E; [done|].
  set (m := Z.of_nat (S n)).
  assert (0 < m)%Z by lia.
  pose proof (Z.mod_pos_bound k m ltac:(lia)) as Hr.
  destruct (decide (k `mod` m = 0)%Z) as [Hz|Hz].
  - assert ((- k) `mod` m = 0)%Z as -> by (by apply Z.mod_opp_l_z; [lia|]).
    rewrite Hz. change (Z.to_nat 0) with 0. rewrite Nat.sub_0_r, <- E.
    rewrite !drop_all, !firstn_all. simpl. by rewrite drop_all.
  - assert ((- k) `mod` m = m - k `mod` m)%Z as -> by (apply Z.mod_opp_l_nz; lia).
    set (r := Z.to_nat (k `mod` m)).
    assert (Z.to_nat (m - k `mod` m) = S n - r) as -> by lia.
    assert (0 < r < S n) by lia.
    replace (S n - (S n - r)) with (length (drop (S n - r) l))
      by (rewrite length_drop; lia).
    rewrite drop_app_length, take_app_length. apply take_drop.
Qed.

Lemma chunks_length sz cnt d : length (chunks sz cnt d) = cnt.
Proof. revert d. induction cnt; intros; simpl; [done|]. by rewrite IHcnt. Qed.

Lemma chunks_Forall sz cnt d :
  length d = cnt * sz → Forall (λ b, length b = sz) (chunks sz cnt d).
Proof.
  revert d. induction cnt as [|cnt IH]; intros d Hd; simpl; [constructor|].
  constructor.
  - rewrite length_take. lia.
  - apply IH. rewrite length_drop. lia.
Qed.

Lemma join_chunks sz cnt d : length d = cnt * sz → mjoin (chunks sz cnt d) = d.
Proof.
  revert d. induction cnt as [|cnt IH]; intros d Hd; simpl.
  - by destruct d.
  - rewrite IH by (rewrite length_drop; lia). apply take_drop.
Qed.

Lemma chunks_join sz cnt (bs : list (list A)) :
  Forall (λ b, length b = sz) bs → length bs = cnt → chunks sz cnt (mjoin bs) = bs.
Proof.
  intros H <-. induction H as [|b bs Hb _ IH]; simpl; [done|].
  rewrite take_app_length', drop_app_length' by done. by rewrite IH.
Qed.

Lemma join_length sz (bs : list (list A)) :
  Forall (λ b, length b = sz) bs → length (mjoin bs) = length bs * sz.
Proof.
  induction 1 as [|b bs Hb _ IH]; simpl; [done|].
  rewrite length_app. lia.
Qed.

End RollLemmas.

Section ShiftLemmas.
Context {A : Type}.
Implicit Types (l d : list A) (k : Z).

Lemma roll_axes_length ks sh d :
  length d = foldr Nat.mul 1 sh → length (roll_axes ks sh d) = length d.
Proof.
  revert sh d. induction ks as [|k ks IH]; intros [|n rest] d Hd; simpl in *; try done.
  set (sz := foldr Nat.mul 1 rest) in *.
  rewrite (join_length sz).
  - rewrite roll_length, length_fmap, chunks_length. lia.
  - apply roll_Forall, Forall_fmap.
    eapply Forall_impl; [|exact (chunks_Forall sz n d Hd)].
    intros b Hb. simpl. rewrite IH; by rewrite Hb.
Qed.

(** Rolling every axis back undoes the roll of every axis. *)
Lemma roll_axes_inv ks sh d :
  length d = foldr Nat.mul 1 sh →
  roll_axes (Z.opp <$> ks) sh (roll_axes ks sh d) = d.
Proof.
  revert sh d. induction ks as [|k ks IH]; intros [|n rest] d Hd; simpl in *; try done.
  set (sz := foldr Nat.mul 1 rest) in *.
  pose proof (chunks_Forall sz n d Hd) as Hc.
  assert (Forall (λ b, length b = sz) (roll_axes ks rest <$> chunks sz n d)) as Hc'.
  { apply Forall_fmap. eapply Forall_impl; [|exact Hc].
    intros b Hb. simpl. rewrite roll_axes_length; by rewrite Hb. }
  rewrite (chunks_join sz n)
    by (by apply roll_Forall || by rewrite roll_length, length_fmap, chunks_length).
  rewrite <- roll_fmap, roll_inv, <- list_fmap_compose.
  rewrite <- (join_chunks sz n d Hd) at 2. f_equal.
  rewrite <- (list_fmap_id (chunks sz n d)) at 2.
  apply Forall_fmap_ext. eapply Forall_impl; [|exact Hc].
  intros b Hb. simpl. apply IH. by rewrite Hb.
Qed.

Lemma fftshift_shape (a : ndarray A) : shape (fftshift a) = shape a.
Proof. done. Qed.

Lemma ifftshift_shape (a : ndarray A) : shape (ifftshift a) = shape a.
Proof. done. Qed.

Lemma fftshift_wf (a : ndarray A) : wf a → wf (fftshift a).
Proof. unfold wf, np_size. simpl. intros H. by rewrite roll_axes_length. Qed.

Lemma ifftshift_wf (a : ndarray A) : wf a → wf (ifftshift a).
Proof. unfold wf, np_size. simpl. intros H. by rewrite roll_axes_length. Qed.

Lemma ifftshift_fftshift (a : ndarray A) : wf a → ifftshift (fftshift a) = a.
Proof.
  intros H. destruct a as [sh d]. unfold ifftshift, fftshift, np_roll. simpl. f_equal.
  rewrite (list_fmap_compose (λ n, Z.of_nat (n / 2)) Z.opp).
  by apply roll_axes_inv.
Qed.

Lemma fftshift_ifftshift (a : ndarray A) : wf a → fftshift (ifftshift a) = a.
Proof.
  intros H. destruct a as [sh d]. unfold ifftshift, fftshift, np_roll. simpl. f_equal.
  rewrite <- (roll_axes_inv ((λ n, (- Z.of_nat (n / 2))%Z) <$> sh) sh d) at 2 by done.
  f_equal. rewrite <- list_fmap_compose. apply list_fmap_ext.
  intros _ n _. simpl. lia.
Qed.

End ShiftLemmas.

(** ** Masks *)

Section MaskLemmas.
Context {A B : Type}.

Lemma select_length_eq (m : list bool) (l1 : list A) (l2 : list B) :
  length l1 = length l2 → length (select m l1) = length (select m l2).
Proof.
  revert l1 l2. induction m as [|b m IH]; intros [|x l1] [|y l2] H; simpl in *; try done.
  destruct b; simpl; auto.
Qed.

(** Writing [g p v] at the selected positions, from the values selected
    there, is a pointwise update. *)
Lemma scatter_select (f : B → bool) (g : B → A → A) (p : list B) (l : list A) :
  length p = length l →
  scatter (f <$> p) (zip_with g (select (f <$> p) p) (select (f <$> p) l)) l
  = zip_with (λ x v, if f x then g x v else v) p l.
Proof.
  revert l. induction p as [|x p IH]; intros [|v l] H; simpl in *; try done.
  destruct (f x); simpl.
  - f_equal. apply IH. lia.
  - f_equal. apply IH. lia.
Qed.

Lemma scatter_length (m : list bool) (vals l : list A) :
  length (scatter m vals l) = length l.
Proof.
  revert vals l. induction m as [|b m IH]; intros vals [|x l]; simpl; try done.
  destruct b; [destruct vals|]; simpl; by rewrite IH.
Qed.

End MaskLemmas.

Lemma zip_with_div_mul {A} (f g : A → A → A) (h : A → A) (l1 l2 : list A) :
  zip_with f (zip_with g l1 l2) (h <$> l2) = zip_with (λ p v, f (g p v) (h v)) l1 l2.
Proof.
  revert l2. induction l1 as [|x l1 IH]; intros [|y l2]; simpl; try done.
  by rewrite IH.
Qed.

Lemma insert_snoc {A} (l : list A) (x y : A) : <[length l := y]> (l ++ [x]) = l ++ [y].
Proof. rewrite insert_app_r_alt by lia. by rewrite Nat.sub_diag. Qed.

Lemma zip_with_mask_const {A B C} (f : A → bool) (c d : C) (l1 : list A) (l2 : list B) :
  length l1 = length l2 →
  zip_with (λ (b : bool) x, if b then c else x) (f <$> l1) ((λ _, d) <$> l2)
  = (λ a, if f a then c else d) <$> l1.
Proof.
  revert l2. induction l1 as [|a l1 IH]; intros [|b l2] H; simpl in *; try done.
  f_equal. apply IH. lia.
Qed.

(** ** Shapes *)

Section ShapeLemmas.
Context {K : Numeric} {L : NumericLaws K}.

Lemma nd_map_wf {A B} (f : A → B) (a : ndarray A) : wf a → wf (nd_map f a).
Proof. unfold wf, np_size. simpl. by rewrite length_fmap. Qed.

Lemma nd_zip_wf {A B C} (f : A → B → C) (a : ndarray A) (b : ndarray B) :
  wf a → wf b → shape a = shape b → wf (nd_zip f a b).
Proof.
  unfold wf, np_size. simpl. intros Ha Hb Hs.
  rewrite length_zip_with, Ha, Hb, Hs. lia.
Qed.

Lemma wf_length_eq {A B} (a : ndarray A) (b : ndarray B) :
  wf a → wf b → shape a = shape b → length (data a) = length (data b).
Proof. unfold wf, np_size. intros -> -> ->. done. Qed.

Lemma nonempty_shape {A} (a : ndarray A) : wf a → data a ≠ [] → 0 ∉ shape a.
Proof.
  unfold wf, np_size. intros Hw Hne Hin.
  assert (foldr Nat.mul 1 (shape a) = 0) as Hz.
  { clear Hw. induction (shape a) as [|n sh IH]; [by apply elem_of_nil in Hin|].
    apply elem_of_cons in Hin as [<-|Hin]; simpl; [done|]. rewrite IH by done. lia. }
  rewrite Hz in Hw. by apply length_zero_iff_nil in Hw.
Qed.

Lemma fft_helper_ok x : 0 ∉ shape x → _fft_helper x = Ok (fft_val x).
Proof. intros H. unfold _fft_helper, np_fft_fftn. by rewrite decide_False. Qed.

Lemma ifft_helper_ok x : 0 ∉ shape x → _ifft_helper x = Ok (ifft_val x).
Proof. intros H. unfold _ifft_helper, np_fft_ifftn. by rewrite decide_False. Qed.

Lemma fft_helper_empty x : 0 ∈ shape x → _fft_helper x = Raise ValueError.
Proof. intros H. unfold _fft_helper, np_fft_fftn. by rewrite decide_True. Qed.

Lemma ifft_helper_empty x : 0 ∈ shape x → _ifft_helper x = Raise ValueError.
Proof. intros H. unfold _ifft_helper, np_fft_ifftn. by rewrite decide_True. Qed.

Lemma fft_helper_shape x : shape (fft_val x) = shape x.
Proof. unfold fft_val. by rewrite ifftshift_shape, fftn_shape, fftshift_shape. Qed.

Lemma ifft_helper_shape x : shape (ifft_val x) = shape x.
Proof. unfold ifft_val. by rewrite ifftshift_shape, ifftn_shape, fftshift_shape. Qed.

Lemma fft_helper_wf x : wf x → wf (fft_val x).
Proof. intros. by apply ifftshift_wf, fftn_wf, fftshift_wf. Qed.

Lemma ifft_helper_wf x : wf x → wf (ifft_val x).
Proof. intros. by apply ifftshift_wf, ifftn_wf, fftshift_wf. Qed.

Lemma fourier_scaled_shape rp : shape (fourier_scaled rp) = shape rp.
Proof. apply fft_helper_shape. Qed.

Lemma fourier_scaled_wf rp : wf rp → wf (fourier_scaled rp).
Proof. intros. by apply nd_map_wf, fft_helper_wf. Qed.

Lemma fourier_constrained_wf off dp dt :
  wf dp → wf dt → shape dp = shape dt → wf (fourier_constrained off dp dt).
Proof.
  unfold wf, np_size. simpl. intros Hp Ht Hs.
  rewrite length_zip_with, Hp, Ht, Hs. lia.
Qed.

Lemma pi_modulus_val_shape rp dp off : shape (pi_modulus_val rp dp off) = shape rp.
Proof.
  change (shape (pi_modulus_val rp dp off))
    with (shape (ifft_val (fourier_constrained off dp (fourier_scaled rp)))).
  rewrite ifft_helper_shape. apply fourier_scaled_shape.
Qed.

Lemma pi_modulus_val_wf rp dp off :
  wf rp → wf dp → shape rp = shape dp → wf (pi_modulus_val rp dp off).
Proof.
  intros Hr Hp Hs. apply nd_map_wf, ifft_helper_wf, fourier_constrained_wf; [done| |].
  - by apply fourier_scaled_wf.
  - by rewrite fourier_scaled_shape.
Qed.

Lemma pi_support_val_wf x (idx : ndarray bool) :
  wf x → wf idx → shape idx = shape x → wf (pi_support_val x idx).
Proof.
  unfold wf, np_size. simpl. intros Hx Hi Hs.
  rewrite length_zip_with, Hx, Hi, Hs. lia.
Qed.

Lemma smoothed_shape so sigma : shape (smoothed so sigma) = shape so.
Proof. unfold smoothed. by rewrite gaussian_filter_shape. Qed.

Lemma smoothed_wf so sigma : wf so → wf (smoothed so sigma).
Proof. intros. by apply gaussian_filter_wf, nd_map_wf. Qed.

Lemma difference_map_shape b r P (idx : ndarray bool) (obj : ndarray num) :
  shape (difference_map b r P idx obj) = shape obj.
Proof. done. Qed.

End ShapeLemmas.

(** ** Runs that return *)

Section Wp.
Context {K : Numeric}.
Implicit Types (σ : store) (l : loc) (v : ndarray num).

Lemma wp_ret {A} (a : A) σ Q : Q a σ → wp (mret a) σ Q.
Proof. intros. by exists a, σ. Qed.

Lemma wp_bind {A B} (m : M A) (f : A → M B) σ Q :
  wp m σ (λ a σ', wp (f a) σ' Q) → wp (m ≫= f) σ Q.
Proof.
  intros (a & σ' & Hm & b & σ'' & Hf & HQ). exists b, σ''. split; [|done].
  unfold mbind, M_bind. by rewrite Hm.
Qed.

Lemma wp_mono {A} (m : M A) σ (Q Q' : A → store → Prop) :
  wp m σ Q → (∀ a σ', Q a σ' → Q' a σ') → wp m σ Q'.
Proof. intros (a & σ' & Hm & HQ) H. exists a, σ'. auto. Qed.

Lemma wp_lift {A} (r : result A) (a : A) σ Q : r = Ok a → Q a σ → wp (lift r) σ Q.
Proof. intros -> ?. by exists a, σ. Qed.

Lemma wp_read l v σ Q : σ !! l = Some v → Q v σ → wp (read l) σ Q.
Proof. intros H ?. exists v, σ. split; [|done]. unfold read. by rewrite H. Qed.

Lemma wp_alloc v σ Q : Q (length σ) (σ ++ [v]) → wp (alloc v) σ Q.
Proof. intros. by exists (length σ), (σ ++ [v]). Qed.

Lemma wp_write l v σ Q : l < length σ → Q () (<[l:=v]> σ) → wp (write l v) σ Q.
Proof.
  intros H ?. exists (), (<[l:=v]> σ). split; [|done]. unfold write.
  destruct (σ !! l) eqn:E; [done|]. apply lookup_ge_None in E. lia.
Qed.

Lemma wp_eq {A} (m : M A) σ (x : A) σ1 :
  wp m σ (λ a σ', a = x ∧ σ' = σ1) → m σ = (Ok x, σ1).
Proof. by intros (a & σ' & -> & -> & ->). Qed.

Lemma wp_of_eq {A} (m : M A) σ (x : A) σ1 Q : m σ = (Ok x, σ1) → Q x σ1 → wp m σ Q.
Proof. intros. by exists x, σ1. Qed.

End Wp.

(** Lengths and lookups in a store built from appends and updates. *)
Ltac lt_facts :=
  repeat match goal with
  | H : ?s !! ?l = Some _ |- _ =>
      lazymatch goal with
      | _ : l < length s |- _ => fail
      | _ => pose proof (lookup_lt_Some _ _ _ H)
      end
  end.

Ltac len :=
  lt_facts;
  repeat (progress (rewrite ?length_insert, ?length_app in * ));
  simpl in *; lia.

Ltac lkp_tail :=
  rewrite lookup_app_r by len;
  lazymatch goal with
  | |- _ !! ?i = _ =>
      first [ replace i with 0 by len | replace i with 1 by len | replace i with 2 by len ]
  end;
  reflexivity.

Ltac lkp :=
  repeat first
    [ rewrite list_lookup_insert_ne by len
    | rewrite list_lookup_insert_eq by len
    | rewrite lookup_app_l by len ];
  first [ eassumption | reflexivity | by apply list_lookup_middle | lkp_tail ].

Tactic Notation "wp_go" uconstr(lem) :=
  lazymatch goal with
  | |- wp (mbind _ _) _ _ => apply wp_bind
  | |- _ => idtac
  end;
  eapply lem; cbv beta.

(** ** What the functions return *)

Section FunctionSpecs.
Context {K : Numeric} {L : NumericLaws K}.
Implicit Types (σ : store) (l : loc) (a rp dp : ndarray num).

Lemma wp_np_array l a σ Q :
  σ !! l = Some a → Q (length σ) (σ ++ [a]) → wp (np_array l) σ Q.
Proof. intros Hl HQ. unfold np_array. wp_go wp_read; [done|]. by wp_go wp_alloc. Qed.

Lemma wp_setitem_mask_scalar l a (m : ndarray bool) c σ Q :
  σ !! l = Some a → shape m = shape a →
  Q () (<[l := mk_nd (shape a)
                 (zip_with (λ (b : bool) x, if b then c else x) (data m) (data a))]> σ) →
  wp (setitem_mask_scalar l m c) σ Q.
Proof.
  intros Hl Hs HQ. unfold setitem_mask_scalar. wp_go wp_read; [done|].
  rewrite decide_True by done. wp_go wp_write; [|done]. by eapply lookup_lt_Some.
Qed.

Lemma wp_setitem_int l a n c σ Q :
  σ !! l = Some a → n < length (data a) →
  Q () (<[l := mk_nd (shape a) (<[n:=c]> (data a))]> σ) →
  wp (setitem_int l n c) σ Q.
Proof.
  intros Hl Hn HQ. unfold setitem_int. wp_go wp_read; [done|].
  rewrite decide_True by done. wp_go wp_write; [|done]. by eapply lookup_lt_Some.
Qed.

Lemma wp_pi_support l (x : ndarray num) (idx : ndarray bool) σ Q :
  σ !! l = Some x → shape idx = shape x →
  Q (length σ) (σ ++ [pi_support_val x idx]) →
  wp (pi_support l idx) σ Q.
Proof.
  intros Hl Hs HQ. unfold pi_support.
  wp_go wp_np_array; [done|].
  wp_go (wp_setitem_mask_scalar (length σ) x); [lkp|done|].
  apply wp_ret. by rewrite insert_snoc.
Qed.

Lemma wp_pi_modulus lr lp rp dp off σ Q :
  σ !! lr = Some rp → σ !! lp = Some dp →
  shape rp = shape dp → wf rp → wf dp → 0 ∉ shape rp →
  Q (length (σ ++ [fourier_constrained off dp (fourier_scaled rp)]))
    ((σ ++ [fourier_constrained off dp (fourier_scaled rp)]) ++ [pi_modulus_val rp dp off]) →
  wp (pi_modulus lr lp off) σ Q.
Proof.
  intros Hr Hp Hs Wr Wp Hne HQ. unfold pi_modulus.
  wp_go wp_read; [done|].
  wp_go wp_lift; [by apply fft_helper_ok|].
  fold (fourier_scaled rp). wp_go wp_alloc.
  wp_go wp_read; [lkp|].
  wp_go wp_lift. { unfold getitem_mask. by rewrite decide_True. }
  wp_go wp_read; [lkp|].
  wp_go wp_lift.
  { unfold getitem_mask. rewrite decide_True; [done|].
    by rewrite fourier_scaled_shape. }
  assert (length (data dp) = length (data (fourier_scaled rp))) as Hlen.
  { apply wf_length_eq; [done|by apply fourier_scaled_wf|by rewrite fourier_scaled_shape]. }
  apply wp_bind. unfold setitem_mask.
  wp_go wp_read; [lkp|].
  rewrite decide_True by (by rewrite fourier_scaled_shape).
  rewrite decide_True.
  2:{ rewrite zip_with_div_mul, length_zip_with.
      rewrite (select_length_eq _ (data dp) (data (fourier_scaled rp))) by done. lia. }
  wp_go wp_write; [len|].
  rewrite insert_snoc.
  wp_go wp_read; [lkp|].
  wp_go wp_lift.
  { apply ifft_helper_ok. cbn [shape]. by rewrite fourier_scaled_shape. }
  apply wp_alloc.
  rewrite zip_with_div_mul. unfold np_gt, nd_map. cbn [data].
  rewrite (scatter_select (λ p, flt (of_Z 0) p)
             (λ p v, fdiv (fmul p v) (fadd (fabs v) off))) by done.
  exact HQ.
Qed.

Lemma np_max_ok (a : ndarray num) : data a ≠ [] → ∃ mx, np_max a = Ok mx.
Proof. unfold np_max. destruct (data a); [done|]. eauto. Qed.

Lemma find_support_val_eq (so : ndarray num) sigma t mx :
  np_max (smoothed so sigma) = Ok mx →
  find_support_val so sigma t = threshold_mask (smoothed so sigma) t mx.
Proof. unfold find_support_val. by intros ->. Qed.

Lemma find_support_val_shape (so : ndarray num) sigma t :
  shape (find_support_val so sigma t) = shape so.
Proof.
  unfold find_support_val. destruct (np_max _); simpl; [|done].
  apply smoothed_shape.
Qed.

Lemma find_support_val_wf (so : ndarray num) sigma t :
  wf so → wf (find_support_val so sigma t).
Proof.
  intros. unfold find_support_val. destruct (np_max _).
  - by apply nd_map_wf, smoothed_wf.
  - by apply nd_map_wf.
Qed.

Lemma wp_find_support l (so : ndarray num) sigma t σ Q :
  σ !! l = Some so → wf so → data so ≠ [] →
  Q (length σ) (σ ++ [find_support_val so sigma t]) →
  wp (find_support l sigma t) σ Q.
Proof.
  intros Hl Wf Hne HQ. unfold find_support.
  wp_go wp_read; [done|]. fold (smoothed so sigma).
  assert (length (data (smoothed so sigma)) = length (data so)) as Hlen.
  { apply wf_length_eq; [by apply smoothed_wf|done|apply smoothed_shape]. }
  destruct (np_max_ok (smoothed so sigma)) as [mx Hmx].
  { intros E. rewrite E in Hlen. by destruct (data so). }
  wp_go wp_lift; [done|].
  wp_go wp_alloc.
  wp_go (wp_setitem_mask_scalar (length σ)); [lkp| |].
  { simpl. apply smoothed_shape. }
  apply wp_ret. rewrite insert_snoc.
  rewrite (find_support_val_eq _ _ _ mx) in HQ by done.
  replace (mk_nd _ _) with (threshold_mask (smoothed so sigma) t mx); [done|].
  unfold threshold_mask, np_ge, zeros_like, nd_map. cbn [shape data]. f_equal.
  - by rewrite smoothed_shape.
  - rewrite <- list_fmap_compose. symmetry. apply zip_with_mask_const.
    by rewrite Hlen.
Qed.

Lemma wp_cal_relative_error l_old l_new (xo xn : ndarray num) σ Q :
  σ !! l_old = Some xo → σ !! l_new = Some xn → shape xn = shape xo →
  Q (relative_error_val xo xn) σ →
  wp (cal_relative_error l_old l_new) σ Q.
Proof.
  intros Ho Hn Hs HQ. unfold cal_relative_error.
  wp_go wp_read; [done|]. wp_go wp_read; [done|].
  wp_go wp_lift. { unfold ew. by rewrite decide_True. }
  by apply wp_ret.
Qed.

Lemma wp_cal_diff_error l lp (so dp : ndarray num) σ Q :
  σ !! l = Some so → σ !! lp = Some dp → shape so = shape dp → 0 ∉ shape so →
  (∀ nd, Q (diff_error_val so dp) (σ ++ [nd])) →
  wp (cal_diff_error l lp) σ Q.
Proof.
  intros Hl Hp Hs Hne HQ. unfold cal_diff_error.
  wp_go wp_read; [done|]. wp_go wp_lift; [by apply fft_helper_ok|]. wp_go wp_alloc.
  eapply wp_cal_relative_error; [lkp|lkp| |apply HQ].
  change (shape (fft_val so) = shape dp). by rewrite fft_helper_shape.
Qed.

Lemma wp_mix c1 la c2 lb (va vb : ndarray num) σ Q :
  σ !! la = Some va → σ !! lb = Some vb → shape va = shape vb →
  Q (length σ) (σ ++ [nd_zip fsub (scale c1 va) (scale c2 vb)]) →
  wp (mix c1 la c2 lb) σ Q.
Proof.
  intros Ha Hb Hs HQ. unfold mix.
  wp_go wp_read; [done|]. wp_go wp_read; [done|].
  wp_go wp_lift. { unfold ew. by rewrite decide_True. }
  by apply wp_alloc.
Qed.

Lemma wp_iadd l (vx y : ndarray num) σ Q :
  σ !! l = Some vx → shape vx = shape y → is_complex_array vx = true →
  Q () (<[l := nd_zip fadd vx y]> σ) →
  wp (iadd l y) σ Q.
Proof.
  intros Hl Hs Hc HQ. unfold iadd.
  wp_go wp_read; [done|]. rewrite Hc. cbn [orb].
  wp_go wp_lift. { unfold ew. by rewrite decide_True. }
  apply wp_write; [by eapply lookup_lt_Some|done].
Qed.

(** The sum of a complex array and any array is a complex array. *)
Lemma is_complex_array_add (a b : ndarray num) :
  is_complex_array a = true → is_complex_array (nd_zip fadd a b) = true.
Proof.
  unfold is_complex_array, nd_zip. cbn [data]. generalize (data b).
  induction (data a) as [|x l IH]; intros [|y k] H; simpl in *; try done.
  apply andb_true_iff in H as [Hx Hl]. by rewrite fis_complex_fadd, IH.
Qed.

Lemma is_complex_array_astype (a : ndarray num) :
  is_complex_array (nd_map astype_complex a) = true.
Proof.
  unfold is_complex_array, nd_map. cbn [data].
  induction (data a) as [|x l IH]; [done|].
  cbn [fmap list_fmap forallb]. rewrite fis_complex_astype. exact IH.
Qed.

Lemma wp_real_mode c l (a : ndarray num) σ Q :
  σ !! l = Some a →
  (is_real c = true → Q (length σ) (σ ++ [nd_map fabs a])) →
  (is_real c = false → Q l σ) →
  wp (real_mode c l) σ Q.
Proof.
  intros Hl Ht Hf. unfold real_mode. fold (is_real c).
  destruct (is_real c).
  - wp_go wp_read; [done|]. apply wp_alloc. auto.
  - apply wp_ret. auto.
Qed.

Lemma wp_np_zeros (n : Z) σ Q :
  (0 ≤ n)%Z →
  Q (length σ) (σ ++ [mk_nd [Z.to_nat n] (replicate (Z.to_nat n) (of_Z 0))]) →
  wp (np_zeros n) σ Q.
Proof.
  intros Hn HQ. unfold np_zeros. rewrite decide_False by lia. by apply wp_alloc.
Qed.

End FunctionSpecs.

(** ** One iteration *)

(** Shapes of the values an iteration builds. *)
Ltac shp :=
  repeat first
    [ progress cbn [shape nd_zip nd_map scale mul_scalar div_scalar pi_support_val
                    mixed zeros_like np_lt np_gt np_ge]
    | rewrite pi_modulus_val_shape
    | rewrite difference_map_shape
    | rewrite find_support_val_shape
    | rewrite smoothed_shape ];
  first [ done | congruence ].

Create HintDb wfdb.
#[export] Hint Extern 1 (wf (nd_map _ _)) => apply nd_map_wf : wfdb.
#[export] Hint Extern 1 (wf (scale _ _)) => apply nd_map_wf : wfdb.
#[export] Hint Extern 1 (wf (np_lt _ _)) => apply nd_map_wf : wfdb.
#[export] Hint Extern 1 (wf (zeros_like _)) => apply nd_map_wf : wfdb.
#[export] Hint Extern 1 (wf (nd_zip _ _ _)) => apply nd_zip_wf; [| |shp] : wfdb.
#[export] Hint Extern 1 (wf (mixed _ _ _)) => apply nd_zip_wf; [| |shp] : wfdb.
#[export] Hint Extern 1 (wf (pi_support_val _ _)) => apply pi_support_val_wf; [| |shp] : wfdb.
#[export] Hint Extern 1 (wf (pi_modulus_val _ _ _)) => apply pi_modulus_val_wf; [| |shp] : wfdb.
#[export] Hint Extern 1 (wf (find_support_val _ _ _)) => apply find_support_val_wf : wfdb.
#[export] Hint Extern 1 (wf (modulus_projection _ _ _)) =>
  unfold modulus_projection; match goal with |- context [if ?b then _ else _] => destruct b end : wfdb.

Ltac wfs := auto 20 with wfdb.

(** An array of the shape of [P] has no empty axis when [P] has none. *)
Ltac nes P :=
  lazymatch goal with
  | |- 0 ∉ shape ?x => replace (shape x) with (shape P) by (symmetry; shp); assumption
  end.

Section Iteration.
Context {K : Numeric} {L : NumericLaws K}.
Implicit Types (σ : store) (P : ndarray num) (st : locals).

Lemma wp_update_object c n0 lo st (obj : ndarray num) P σ Q :
  lo < n0 → σ !! lo = Some obj → σ !! n0 = Some P →
  shape obj = shape P → wf obj → wf P → 0 ∉ shape P →
  is_complex_array obj = true →
  shape (sup_out_index st) = shape P → wf (sup_out_index st) →
  (∀ temps, Q (length σ)
     (<[lo := difference_map (beta c) (is_real c) P (sup_out_index st) obj]> σ
      ++ obj :: temps)) →
  wp (update_object c (the_gammas c) (the_env n0 lo) st) σ Q.
Proof.
  intros Hlt Ho Hp Hs Wo Wp Hne Hc Hi Wi HQ.
  unfold update_object, the_env, the_gammas.
  cbn [sample_obj diffracted_pattern gamma_1 gamma_2].
  unfold difference_map, modulus_projection in HQ.
  destruct (is_real c) eqn:Hreal.
  - wp_go wp_np_array; [done|].
    wp_go wp_pi_modulus; [lkp|lkp|shp|wfs|wfs|nes P|].
    wp_go wp_real_mode; [lkp| |congruence]. intros _.
    wp_go wp_mix; [lkp|lkp|shp|].
    wp_go wp_pi_support; [lkp|shp|].
    wp_go wp_pi_support; [lkp|shp|].
    wp_go wp_mix; [lkp|lkp|shp|].
    wp_go wp_pi_modulus; [lkp|lkp|shp|wfs|wfs|nes P|].
    wp_go wp_real_mode; [lkp| |congruence]. intros _.
    wp_go wp_read; [lkp|]. wp_go wp_read; [lkp|].
    wp_go wp_lift. { unfold ew. rewrite decide_True; [done|shp]. }
    wp_go wp_iadd; [lkp|shp|done|].
    apply wp_ret.
    rewrite !insert_app_l by len. rewrite <- !app_assoc. apply HQ.
  - wp_go wp_np_array; [done|].
    wp_go wp_pi_modulus; [lkp|lkp|shp|wfs|wfs|nes P|].
    wp_go wp_real_mode; [lkp|congruence|]. intros _.
    wp_go wp_mix; [lkp|lkp|shp|].
    wp_go wp_pi_support; [lkp|shp|].
    wp_go wp_pi_support; [lkp|shp|].
    wp_go wp_mix; [lkp|lkp|shp|].
    wp_go wp_pi_modulus; [lkp|lkp|shp|wfs|wfs|nes P|].
    wp_go wp_real_mode; [lkp|congruence|]. intros _.
    wp_go wp_read; [lkp|]. wp_go wp_read; [lkp|].
    wp_go wp_lift. { unfold ew. rewrite decide_True; [done|shp]. }
    wp_go wp_iadd; [lkp|shp|done|].
    apply wp_ret.
    rewrite !insert_app_l by len. rewrite <- !app_assoc. apply HQ.
Qed.

Lemma wp_record_errors n0 lo n l_old (xo obj oe de : ndarray num) P σ Q :
  lo < n0 → n0 + 3 < l_old →
  σ !! l_old = Some xo → σ !! lo = Some obj → σ !! n0 = Some P →
  σ !! (n0 + 1) = Some oe → σ !! (n0 + 2) = Some de →
  n < length (data oe) → n < length (data de) →
  shape obj = shape xo → shape obj = shape P → 0 ∉ shape P →
  (∀ nd, Q ()
     (<[n0 + 2 := mk_nd (shape de) (<[n := diff_error_val obj P]> (data de))]>
        (<[n0 + 1 := mk_nd (shape oe) (<[n := relative_error_val xo obj]> (data oe))]> σ)
      ++ [nd])) →
  wp (record_errors (the_env n0 lo) n l_old) σ Q.
Proof.
  intros Hlt Hold Hxo Ho Hp Hoe Hde Hn1 Hn2 Hs1 Hs2 Hne HQ.
  unfold record_errors, the_env. cbn [sample_obj diffracted_pattern errors obj_error diff_error].
  wp_go wp_cal_relative_error; [done|done|done|].
  wp_go wp_setitem_int; [done|done|].
  wp_go wp_cal_diff_error; [lkp|lkp|done|by rewrite Hs2|]. intros nd.
  wp_go wp_setitem_int; [lkp|done|].
  rewrite insert_app_l by len. apply HQ.
Qed.

Lemma wp_shrinkwrap c n0 lo n st (obj so se : ndarray num) σ Q :
  σ !! lo = Some obj → wf obj → data obj ≠ [] →
  σ !! sup_old st = Some so → σ !! (n0 + 3) = Some se → n < length (data se) →
  (sw_due c n = true →
     let new_sup := find_support_val obj (sw_sigma c) (sw_threshold c) in
     Q {| sup := length σ; sup_out_index := np_lt new_sup (of_Z 1);
          sup_old := length σ + 1; obj_avg := obj_avg st; avg_i := avg_i st |}
       (<[n0 + 3 := mk_nd (shape se) (<[n := np_sum so]> (data se))]> σ
        ++ [new_sup; new_sup])) →
  (sw_due c n = false → Q st σ) →
  wp (shrinkwrap c (the_env n0 lo) n st) σ Q.
Proof.
  intros Ho Wo Hne Hso Hse Hn Ht Hf.
  unfold shrinkwrap, the_env. cbn [sample_obj errors sup_error].
  destruct (sw_due c n); [|by apply wp_ret, Hf].
  specialize (Ht eq_refl). cbv zeta in Ht.
  wp_go wp_find_support; [done|done|done|].
  wp_go wp_read; [lkp|]. wp_go wp_read; [lkp|].
  wp_go wp_setitem_int; [lkp|done|].
  wp_go wp_np_array; [lkp|].
  apply wp_ret. rewrite insert_app_l by len.
  rewrite length_app, length_insert, <- app_assoc. exact Ht.
Qed.

Lemma wp_average c n0 lo n st (obj avg : ndarray num) σ Q :
  σ !! lo = Some obj → σ !! obj_avg st = Some avg → shape avg = shape obj →
  is_complex_array avg = true →
  (avg_due c n = true →
     Q {| sup := sup st; sup_out_index := sup_out_index st; sup_old := sup_old st;
          obj_avg := obj_avg st; avg_i := (avg_i st + 1)%Z |}
       (<[obj_avg st := nd_zip fadd avg obj]> σ)) →
  (avg_due c n = false → Q st σ) →
  wp (average c (the_env n0 lo) n st) σ Q.
Proof.
  intros Ho Ha Hs Hc Ht Hf. unfold average, the_env. cbn [sample_obj].
  destruct (avg_due c n); [|by apply wp_ret, Hf].
  wp_go wp_read; [done|]. wp_go wp_iadd; [done|done|done|].
  apply wp_ret. by apply Ht.
Qed.

(** *** The store and the values *)

Lemma difference_map_wf b r P (idx : ndarray bool) (obj : ndarray num) :
  wf P → wf obj → wf idx → shape obj = shape P → shape idx = shape P →
  wf (difference_map b r P idx obj).
Proof.
  intros. unfold difference_map. destruct r; unfold modulus_projection; wfs.
Qed.

Lemma good_step c P N a n :
  wf P → good P N a → good P N (step_val c P a n).
Proof.
  intros WP [Hos Wo His Wi Has Hoe Hde Hse Hoc Hac].
  assert (wf (difference_map (beta c) (is_real c) P (a_idx a) (a_obj a))) as Wd
    by (by apply difference_map_wf).
  split; unfold step_val; cbn [a_obj a_idx a_sup_old a_avg a_avg_i a_obj_error
                                 a_diff_error a_sup_error].
  - by rewrite difference_map_shape.
  - done.
  - destruct (sw_due c n); [|done]. shp.
  - destruct (sw_due c n); [|done]. wfs.
  - destruct (avg_due c n); [|done]. shp.
  - by rewrite length_insert.
  - by rewrite length_insert.
  - destruct (sw_due c n); [|done]. by rewrite length_insert.
  - unfold difference_map. by apply is_complex_array_add.
  - destruct (avg_due c n); [|done]. by apply is_complex_array_add.
Qed.

Lemma wp_iteration c n0 lo N P st a σ n Q :
  wf P → data P ≠ [] → n < N → good P N a → rep n0 lo N P st a σ →
  (∀ st' σ',
     rep n0 lo N P st' (step_val c P a n) σ' →
     length σ ≤ length σ' →
     (∀ l, l < length σ → l ≠ lo → l ≠ n0 + 1 → l ≠ n0 + 2 → l ≠ n0 + 3 → l ≠ n0 + 5 →
           σ' !! l = σ !! l) →
     (if sw_due c n
      then length σ ≤ sup st' ∧ σ' !! sup st' = Some (a_sup_old (step_val c P a n))
      else sup st' = sup st ∧ sup_old st' = sup_old st) →
     Q st' σ') →
  wp (iteration c (the_gammas c) (the_env n0 lo) n st) σ Q.
Proof.
  intros WP Hne Hn [Hos Wo His Wi Has Hoe Hde Hse Hoc Hac]
    [Hlo Hlen Ho Hp Hoa Hda Hsa Hal Hav [Hol1 Hol2] Hold Hidx Hai [Hsup1 Hsup2]] HQ.
  pose proof (nonempty_shape P WP Hne) as HneP.
  assert (wf (difference_map (beta c) (is_real c) P (a_idx a) (a_obj a))) as Wd
    by (by apply difference_map_wf).
  assert (data (difference_map (beta c) (is_real c) P (a_idx a) (a_obj a)) ≠ []) as Hd.
  { intros E. apply Hne. apply length_zero_iff_nil.
    rewrite <- (wf_length_eq _ P Wd WP) by done. by rewrite E. }
  unfold iteration.
  wp_go wp_update_object;
    [done|done|done|done|done|done|done|done|by rewrite Hidx|by rewrite Hidx|].
  intros temps. rewrite Hidx.
  wp_go wp_record_errors; [done|len|lkp|lkp|lkp|lkp|lkp|simpl; lia|simpl; lia|shp|shp|done|].
  intros nd. cbn [shape data].
  wp_go wp_shrinkwrap; [lkp|done|done|lkp|lkp|simpl; lia| |]; intros Hsw; cbv zeta.
  - wp_go wp_average; [lkp|cbn [obj_avg]; rewrite Hal; lkp|shp|done| |]; intros Hag;
      (apply HQ; [ | len | intros; lkp
                 | rewrite Hsw; unfold step_val; rewrite Hsw; cbn [sup a_sup_old];
                   split; [len|lkp] ]);
      unfold step_val; rewrite Hsw, Hag;
      (split; cbn [a_obj a_idx a_sup_old a_avg a_avg_i a_obj_error a_diff_error
                   a_sup_error sup sup_out_index sup_old obj_avg avg_i shape data];
       rewrite ?Hal; try done; try len; try lkp; try congruence).
  - wp_go wp_average; [lkp|rewrite Hal; lkp|shp|done| |]; intros Hag;
      (apply HQ; [ | len | intros; lkp | rewrite Hsw; cbn [sup sup_old]; done ]);
      unfold step_val; rewrite Hsw, Hag;
      (split; cbn [a_obj a_idx a_sup_old a_avg a_avg_i a_obj_error a_diff_error
                   a_sup_error sup sup_out_index sup_old obj_avg avg_i shape data];
       rewrite ?Hal; try done; try len; try lkp; try congruence).
Qed.

End Iteration.

(** ** The loop *)

Section Loop.
Context {K : Numeric} {L : NumericLaws K}.
Implicit Types (σ : store) (P O S : ndarray num) (st : locals).

Lemma state_after_S c P O S k :
  state_after c P O S (Datatypes.S k) = step_val c P (state_after c P O S k) k.
Proof. unfold state_after. by rewrite seq_S, foldl_app. Qed.

Lemma good_init c P O S :
  shape O = shape P → wf O → shape S = shape P → wf S → is_complex_array O = true →
  good P (Z.to_nat (n_iterations c)) (init_val c P O S).
Proof.
  intros HO WO HS WS HC. split; cbn [init_val a_obj a_idx a_avg a_obj_error a_diff_error
    a_sup_error]; try done; try shp; try wfs; try (by rewrite length_replicate).
  apply is_complex_array_astype.
Qed.

Lemma good_state_after c P O S k :
  wf P → shape O = shape P → wf O → shape S = shape P → wf S → is_complex_array O = true →
  good P (Z.to_nat (n_iterations c)) (state_after c P O S k).
Proof.
  intros. induction k as [|k IH]; [by apply good_init|].
  rewrite state_after_S. by apply good_step.
Qed.

Lemma cdi_entry_ok c lp lo ls P S σ :
  σ !! lp = Some P → σ !! ls = Some S →
  fis_zero (beta c) = false → (0 ≤ n_iterations c)%Z →
  cdi_entry lp lo ls c σ
  = (Ok (the_gammas c, the_env (length σ) lo, entry_locals c σ ls S), entry_store c σ P).
Proof.
  intros Hp Hs Hb HN. apply wp_eq. unfold cdi_entry.
  wp_go wp_np_array; [done|].
  wp_go wp_lift; [unfold truediv; by rewrite Hb|].
  wp_go wp_lift; [unfold truediv; by rewrite Hb|].
  wp_go wp_read; [lkp|].
  wp_go wp_np_zeros; [done|]. wp_go wp_np_zeros; [done|]. wp_go wp_np_zeros; [done|].
  wp_go wp_read; [lkp|]. wp_go wp_alloc. wp_go wp_alloc. apply wp_ret.
  unfold entry_store, entry_locals, the_env, the_gammas. rewrite <- !app_assoc.
  repeat (rewrite !length_app; simpl). split; [|done].
  repeat f_equal; lia.
Qed.

(** The coefficients an entry that returns has bound. *)
Lemma cdi_entry_gammas c lp lo ls g e st (σ σ' : store) :
  cdi_entry lp lo ls c σ = (Ok (g, e, st), σ') → g = the_gammas c.
Proof.
  unfold cdi_entry, truediv, np_array, np_zeros, mbind, M_bind, read, alloc, lift, mret, M_ret.
  intros H.
  destruct (σ !! lp); [|done].
  destruct (fis_zero (beta c)); [done|].
  destruct (_ !! ls); [|done].
  destruct (decide (n_iterations c < 0)%Z); [done|].
  destruct (_ !! length σ); [|done].
  by injection H as <- _ _ _.
Qed.

Lemma rep_entry c lo lp ls P O S σ :
  σ !! lp = Some P → σ !! lo = Some O → σ !! ls = Some S →
  rep (length σ) lo (Z.to_nat (n_iterations c)) P (entry_locals c σ ls S)
      (init_val c P O S) (entry_store c σ P).
Proof.
  intros Hp Ho Hs. unfold entry_store, entry_locals, init_val.
  split; cbn [a_obj a_idx a_sup_old a_avg a_avg_i a_obj_error a_diff_error
              a_sup_error sup sup_out_index sup_old obj_avg avg_i];
    try done; try len; try lkp.
  all: rewrite lookup_app_r by len.
  all: lazymatch goal with
       | |- _ !! ?i = _ =>
           first [ replace i with 1 by len | replace i with 2 by len
                 | replace i with 3 by len | replace i with 4 by len
                 | replace i with 5 by len ]
       end; reflexivity.
Qed.

(** The iterations [j], ..., [j + k - 1] from a state the store holds. *)
Lemma wp_for_each c n0 lo N P k : ∀ j st a σ Q,
  wf P → data P ≠ [] → j + k ≤ N → good P N a → rep n0 lo N P st a σ →
  (∀ st' σ',
     rep n0 lo N P st' (foldl (step_val c P) a (seq j k)) σ' →
     length σ ≤ length σ' →
     (∀ l, l < n0 → l ≠ lo → σ' !! l = σ !! l) →
     Q st' σ') →
  wp (for_each (seq j k) (iteration c (the_gammas c) (the_env n0 lo)) st) σ Q.
Proof.
  induction k as [|k IH]; intros j st a σ Q WP Hne Hjk Hg Hr HQ; simpl.
  - apply wp_ret. by apply HQ.
  - wp_go (wp_iteration c n0 lo N P st a); [done|done|lia|done|done|].
    intros st' σ' Hr' Hlen Hfr _.
    eapply IH; [done|done|lia|by apply good_step|done|].
    intros st'' σ'' Hr'' Hlen' Hfr'. apply HQ; [done|lia|].
    intros l Hl Hlo. rewrite Hfr' by done.
    destruct Hr. apply Hfr; lia.
Qed.

End Loop.

(** ** The whole call *)

Section Call.
Context {K : Numeric} {L : NumericLaws K}.
Implicit Types (σ : store) (P O S : ndarray num) (st : locals).

Lemma for_each_app {T} (l1 l2 : list nat) (body : nat → T → M T) (st : T) σ :
  for_each (l1 ++ l2) body st σ
  = (st' ← for_each l1 body st; for_each l2 body st') σ.
Proof.
  revert st σ. induction l1 as [|n l1 IH]; intros st σ; simpl; [done|].
  unfold mbind, M_bind in *. destruct (body n st σ) as [[st'|e] σ']; [|done].
  apply IH.
Qed.

(** The first [k + 1] iterations are the first [k] and one more. *)
Lemma cdi_prefix_S lp lo ls c k σ :
  cdi_prefix lp lo ls c (Datatypes.S k) σ
  = ('(e, st) ← cdi_prefix lp lo ls c k;
     st' ← iteration c (the_gammas c) e k st; mret (e, st')) σ.
Proof.
  unfold cdi_prefix, mbind, M_bind.
  destruct (cdi_entry lp lo ls c σ) as [[[[g e] st]|x] σ1] eqn:Hentry; [|done].
  apply cdi_entry_gammas in Hentry as ->.
  rewrite seq_S, for_each_app. unfold mbind, M_bind. simpl.
  destruct (for_each (seq 0 k) (iteration c (the_gammas c) e) st σ1) as [[st1|x] σ2]; [|done].
  unfold mbind, M_bind, mret, M_ret.
  destruct (iteration c (the_gammas c) e k st1 σ2) as [[st2|x] σ3]; done.
Qed.

(** With arrays of one shape the first [k] iterations return, and the store
    holds the values of [state_after]. *)
Lemma cdi_prefix_ok c lp lo ls P O S σ k :
  inputs_ok σ lp lo ls P O S → fis_zero (beta c) = false →
  (0 ≤ n_iterations c)%Z → k ≤ Z.to_nat (n_iterations c) →
  ∃ st σ',
    cdi_prefix lp lo ls c k σ = (Ok (the_env (length σ) lo, st), σ')
    ∧ rep (length σ) lo (Z.to_nat (n_iterations c)) P st (state_after c P O S k) σ'
    ∧ length σ ≤ length σ'
    ∧ (∀ l, l < length σ → l ≠ lo → σ' !! l = σ !! l).
Proof.
  intros [Hp Ho Hs HO HS WP WO WS Hne HC] Hb HN Hk.
  unfold cdi_prefix.
  assert (wp (for_each (seq 0 k) (iteration c (the_gammas c) (the_env (length σ) lo))
                (entry_locals c σ ls S)) (entry_store c σ P)
            (λ st' σ', rep (length σ) lo (Z.to_nat (n_iterations c)) P st'
                         (state_after c P O S k) σ'
                       ∧ length σ ≤ length σ'
                       ∧ (∀ l, l < length σ → l ≠ lo → σ' !! l = σ !! l))) as Hw.
  { eapply (wp_for_each c (length σ) lo (Z.to_nat (n_iterations c)) P k 0 _
              (init_val c P O S));
      [done|done|simpl; lia|by apply good_init|exact (rep_entry c lo lp ls P O S σ Hp Ho Hs)|].
    intros st' σ' Hr Hlen Hfr. split; [done|]. unfold entry_store in *. split; [len|].
    intros l Hl Hlo. rewrite Hfr by done. by rewrite lookup_app_l. }
  destruct Hw as (st' & σ' & Hrun & Hr & Hlen & Hfr).
  exists st', σ'. unfold mbind, M_bind.
  rewrite (cdi_entry_ok c lp lo ls P S) by done. rewrite Hrun. done.
Qed.

End Call.

(** ** The binary64 instance satisfies the laws *)

Module Float64Laws.
Import Float64.

Lemma ltb_irrefl (x : float) : (x <? x)%float = false.
Proof.
  rewrite ltb_spec. unfold SFltb, SFcompare.
  destruct (Prim2SF x) as [s|s| |s m e]; try (destruct s; reflexivity); try reflexivity.
  rewrite Z.compare_refl, Pos.compare_cont_refl. destruct s; reflexivity.
Qed.

Lemma sum_blocks_length sz (z : t) (ts : list (list t)) :
  Forall (λ b, length b = sz) ts →
  length (foldl (zip_with add) (replicate sz z) ts) = sz.
Proof.
  intros H. assert (length (replicate sz z) = sz) as Hz by apply length_replicate.
  revert Hz. generalize (replicate sz z).
  induction H as [|b ts Hb _ IH]; intros acc Hacc; simpl; [done|].
  apply IH. rewrite length_zip_with. lia.
Qed.

Lemma dft_blocks_Forall inverse sz (xs : list (list t)) :
  Forall (λ b, length b = sz) xs →
  Forall (λ b, length b = sz) (dft_blocks inverse sz xs).
Proof.
  intros H. unfold dft_blocks. apply Forall_fmap, Forall_forall. intros k _. simpl.
  apply sum_blocks_length. apply Forall_lookup. intros j y Hy.
  rewrite list_lookup_imap in Hy.
  destruct (xs !! j) as [x|] eqn:E; simplify_eq/=.
  rewrite length_fmap. exact (Forall_lookup_1 _ xs j x H E).
Qed.

Lemma dft_blocks_length inverse sz (xs : list (list t)) :
  length (dft_blocks inverse sz xs) = length xs.
Proof. unfold dft_blocks. by rewrite length_fmap, length_seq. Qed.

Lemma dftn_length inverse sh (d : list t) :
  length d = foldr Nat.mul 1 sh → length (dftn inverse sh d) = length d.
Proof.
  revert d. induction sh as [|n rest IH]; intros d Hd; simpl in *; [done|].
  set (sz := foldr Nat.mul 1 rest) in *.
  rewrite (join_length sz).
  - rewrite dft_blocks_length, length_fmap, chunks_length. lia.
  - apply dft_blocks_Forall, Forall_fmap.
    eapply Forall_impl; [|exact (chunks_Forall sz n d Hd)].
    intros b Hb. simpl. rewrite IH; by rewrite Hb.
Qed.

#[global] Instance laws : NumericLaws kernel.
Proof.
  split; try done.
  - intros x. apply ltb_irrefl.
  - by intros [x|x y] [x'|x' y'].
  - intros a H. unfold wf, np_size in *. simpl.
    by rewrite length_fmap, dftn_length.
  - intros a H. unfold wf, np_size in *. simpl.
    by rewrite length_fmap, dftn_length.
  - intros a s. simpl. unfold smooth. by destruct (ltb s (Re 0.125)).
  - intros a s H. simpl. unfold smooth. destruct (ltb s (Re 0.125)); [done|].
    by apply nd_map_wf.
Qed.

End Float64Laws.

(** * Theorems *)

(** ** The Fourier pair *)

Section FourierPair.
Context {K : Numeric} {L : NumericLaws K}.


End FourierPair.



(** The shifts on an odd length, as numpy documents them. *)
Example fftshift_odd : fftshift (mk_nd [5] [0; 1; 2; 3; 4]) = mk_nd [5] [3; 4; 0; 1; 2].
Proof. reflexivity. Qed.

Example ifftshift_odd : ifftshift (mk_nd [5] [0; 1; 2; 3; 4]) = mk_nd [5] [2; 3; 4; 0; 1].
Proof. reflexivity. Qed.

Example fftshift_2x3 :
  fftshift (mk_nd [2; 3] [0; 1; 2; 3; 4; 5]) = mk_nd [2; 3] [5; 3; 4; 2; 0; 1].
Proof. reflexivity. Qed.

(** ** The support projection *)

Section SupportProjection.
Context {K : Numeric}.

Lemma pi_support_val_idem (x : ndarray num) (idx : ndarray bool) :
  pi_support_val (pi_support_val x idx) idx = pi_support_val x idx.
Proof.
  unfold pi_support_val. cbn [shape data]. f_equal.
  generalize (data x). induction (data idx) as [|b m IH]; intros [|v l]; simpl; try done.
  rewrite IH. by destruct b.
Qed.

(** C7. For every array [x] and every boolean index array [index_v] of its
    shape, [pi_support] returns a new array (at a location the store did not
    have), equal to [x] except that the entries at the true positions of
    [index_v] are exactly zero; the store it was called in is unchanged below
    the new array, so [x] itself is not mutated; and applying it again to its
    result, with the same index array, returns an array with the same value. *)
Theorem pi_support_spec (σ : store) (l : loc) (x : ndarray num) (index_v : ndarray bool) :
  σ !! l = Some x → shape index_v = shape x → wf x → wf index_v →
  ∃ y,
    pi_support l index_v σ = (Ok (length σ), σ ++ [y])
    ∧ (σ ++ [y]) !! l = Some x
    ∧ shape y = shape x ∧ length (data y) = length (data x)
    ∧ (∀ i (b : bool) v, data index_v !! i = Some b → data x !! i = Some v →
         data y !! i = Some (if b then of_Z 0 else v))
    ∧ pi_support (length σ) index_v (σ ++ [y]) = (Ok (length σ + 1), (σ ++ [y]) ++ [y]).
Proof.
  intros Hl Hs Wx Wi. exists (pi_support_val x index_v).
  assert (length (data index_v) = length (data x)) as Hlen by (by apply wf_length_eq).
  split; [|split; [|split; [|split; [|split]]]].
  - apply wp_eq. by wp_go wp_pi_support.
  - rewrite lookup_app_l; [done|by eapply lookup_lt_Some].
  - done.
  - simpl. rewrite length_zip_with. lia.
  - intros i b v Hb Hv. simpl. rewrite lookup_zip_with, Hb, Hv. done.
  - apply wp_eq. wp_go wp_pi_support; [by apply list_lookup_middle|done|].
    rewrite pi_support_val_idem, length_app. simpl. done.
Qed.

End SupportProjection.

Lemma pi_support_spec_witness :
  ∃ y, pi_support 0 (mk_nd [3] [true; false; true]) [Float64.complexes [3] [(1, 1); (2, 0); (0, -3)]%Z]
       = (Ok 1, [Float64.complexes [3] [(1, 1); (2, 0); (0, -3)]%Z; y])
       ∧ data y = [Float64.Re 0; Float64.Cx 2 0; Float64.Re 0].
Proof.
  destruct (pi_support_spec (K := Float64.kernel)
              [Float64.complexes [3] [(1, 1); (2, 0); (0, -3)]%Z] 0
              (Float64.complexes [3] [(1, 1); (2, 0); (0, -3)]%Z)
              (mk_nd [3] [true; false; true]))
    as (y & Hrun & _); [reflexivity|reflexivity|reflexivity|reflexivity|].
  exists y. split; [exact Hrun|].
  vm_compute in Hrun. by injection Hrun as <-.
Defined.

(** ** The modulus projection *)

Section ModulusProjection.
Context {K : Numeric} {L : NumericLaws K}.


End ModulusProjection.


(** ** The shrinkwrap support estimator *)

Section SupportEstimator.
Context {K : Numeric} {L : NumericLaws K}.

(** C6. For every non-empty object array, every sigma and every threshold
    [t], [find_support] returns a new mask of the shape of the object in
    which a location is 1 exactly when the Gaussian-smoothed magnitude there
    is [>= t * max] ([max] the [np.max] of the smoothed field; the comparison
    is the inclusive one), and 0 otherwise; the store it was called in is
    unchanged below the new mask, so the object is not mutated. *)
Theorem find_support_spec (σ : store) (l : loc) (obj : ndarray num) (sw_sigma sw_threshold : num) :
  σ !! l = Some obj → wf obj → data obj ≠ [] →
  let conv_fun := gaussian_filter (nd_map fabs obj) sw_sigma in
  ∃ conv_max new_sup,
    np_max conv_fun = Ok conv_max
    ∧ find_support l sw_sigma sw_threshold σ = (Ok (length σ), σ ++ [new_sup])
    ∧ (σ ++ [new_sup]) !! l = Some obj
    ∧ shape new_sup = shape obj ∧ length (data new_sup) = length (data obj)
    ∧ (∀ i v, data conv_fun !! i = Some v →
         data new_sup !! i
         = Some (if fle (fmul sw_threshold conv_max) v then of_Z 1 else of_Z 0)).
Proof.
  intros Hl Wo Hne conv_fun.
  assert (length (data conv_fun) = length (data obj)) as Hlen.
  { apply wf_length_eq; [by apply smoothed_wf|done|apply smoothed_shape]. }
  destruct (np_max_ok conv_fun) as [mx Hmx].
  { intros E. rewrite E in Hlen. by destruct (data obj). }
  exists mx, (find_support_val obj sw_sigma sw_threshold).
  rewrite (find_support_val_eq _ _ _ mx) by done.
  split; [done|]. split; [|split; [|split; [|split]]].
  - apply wp_eq. wp_go wp_find_support; [done|done|done|].
    by rewrite (find_support_val_eq _ _ _ mx).
  - rewrite lookup_app_l; [done|by eapply lookup_lt_Some].
  - apply smoothed_shape.
  - unfold threshold_mask, nd_map. cbn [data]. by rewrite length_fmap.
  - intros i v Hv. unfold threshold_mask, nd_map. cbn [data].
    rewrite list_lookup_fmap. change (smoothed obj sw_sigma) with conv_fun.
    by rewrite Hv.
Qed.

End SupportEstimator.

Lemma find_support_spec_witness :
  ∃ new_sup,
    find_support 0 (Float64.Re 0x1.999999999999ap-4) (Float64.Re 0.5)
      [Float64.complexes [2; 2] [(3, 4); (0, 1); (5, 0); (0, 0)]%Z]
    = (Ok 1, [Float64.complexes [2; 2] [(3, 4); (0, 1); (5, 0); (0, 0)]%Z; new_sup])
    ∧ data new_sup = [Float64.Re 1; Float64.Re 0; Float64.Re 1; Float64.Re 0].
Proof.
  destruct (find_support_spec (K := Float64.kernel)
              [Float64.complexes [2; 2] [(3, 4); (0, 1); (5, 0); (0, 0)]%Z] 0
              (Float64.complexes [2; 2] [(3, 4); (0, 1); (5, 0); (0, 0)]%Z)
              (Float64.Re 0x1.999999999999ap-4) (Float64.Re 0.5))
    as (mx & new_sup & _ & Hrun & _); [reflexivity|reflexivity|discriminate|].
  exists new_sup. split; [exact Hrun|].
  vm_compute in Hrun. by injection Hrun as <-.
Defined.

(** ** Divisions by zero *)

Section Degenerate.
Context {K : Numeric}.

(** C8, as the code has it.  The relative error divides the two norms
    whatever they are, and the final normalization divides the accumulator by
    the contribution count whatever it is: with arrays of one shape both
    return, with the quotient the kernel's division gives (for binary64, inf
    or nan when the divisor is zero), and neither raises. *)
Theorem degenerate_divisions_return (σ : store) (l_old l_new : loc)
    (x_old x_new avg : ndarray num) (e : env) (st : locals) :
  σ !! l_old = Some x_old → σ !! l_new = Some x_new → shape x_new = shape x_old →
  σ !! obj_avg st = Some avg →
  cal_relative_error l_old l_new σ
  = (Ok (fdiv (norm (data (nd_zip fsub x_new x_old))) (norm (data x_old))), σ)
  ∧ cdi_finish e st σ
    = (Ok (length σ, errors e), σ ++ [nd_map (λ v, fdiv v (of_Z (avg_i st))) avg]).
Proof.
  intros Ho Hn Hs Ha. split.
  - apply wp_eq. by wp_go wp_cal_relative_error.
  - apply wp_eq. unfold cdi_finish. wp_go wp_read; [done|]. wp_go wp_alloc. by apply wp_ret.
Qed.

End Degenerate.

Lemma degenerate_divisions_return_witness :
  cal_relative_error 0 1 σ_zero
  = (Ok (fdiv (norm (data (nd_zip fsub (Float64.reals [2] [1; 1]%Z) (Float64.reals [2] [0; 0]%Z))))
              (norm (data (Float64.reals [2] [0; 0]%Z)))), σ_zero)
  ∧ cdi_finish (the_env 3 1) st_zero σ_zero
    = (Ok (3, errors (the_env 3 1)),
       σ_zero ++ [nd_map (λ v, fdiv v (of_Z 0)) (Float64.complexes [2] [(0, 0); (0, 0)]%Z)]).
Proof.
  apply (degenerate_divisions_return (K := Float64.kernel) σ_zero 0 1
           (Float64.reals [2] [0; 0]%Z) (Float64.reals [2] [1; 1]%Z)
           (Float64.complexes [2] [(0, 0); (0, 0)]%Z) (the_env 3 1) st_zero);
    reflexivity.
Defined.

(** On binary64 the quotients are inf and nan; no error is raised. *)
Lemma zero_norm_reference_returns :
  cal_relative_error 0 1 σ_zero = (Ok (Float64.Re infinity), σ_zero)
  ∧ cal_relative_error 0 0 σ_zero = (Ok (Float64.Re nan), σ_zero)
  ∧ cdi_finish (the_env 3 1) st_zero σ_zero
    = (Ok (3, errors (the_env 3 1)),
       σ_zero ++ [mk_nd [2] [Float64.Cx nan nan; Float64.Cx nan nan]]).
Proof. vm_compute. repeat split; reflexivity. Qed.

(** ** The mode flag *)

Section ModeFlag.
Context {K : Numeric}.

Lemma bind_cong {A B} (m m' : M A) (f g : A → M B) (σ : store) :
  m σ = m' σ → (∀ a σ', f a σ' = g a σ') → (m ≫= f) σ = (m' ≫= g) σ.
Proof.
  intros Hm Hf. unfold mbind, M_bind. rewrite Hm.
  destruct (m' σ) as [[a|x] σ']; [apply Hf|done].
Qed.

Lemma real_mode_not_real c (x : loc) (σ : store) :
  lower (pi_modulus_flag c) ≠ "real"%string → real_mode c x σ = (Ok x, σ).
Proof.
  intros H. unfold real_mode.
  destruct (String.eqb_spec (lower (pi_modulus_flag c)) "real"); [done|done].
Qed.

Lemma iteration_flag c g e n st (σ : store) :
  lower (pi_modulus_flag c) ≠ "real"%string →
  iteration c g e n st σ = iteration (with_flag c "Complex") g e n st σ.
Proof.
  intros H. unfold iteration. apply bind_cong; [|done].
  unfold update_object.
  repeat (apply bind_cong;
          [ first [ reflexivity
                  | rewrite !real_mode_not_real by (done || (simpl; discriminate)); reflexivity ]
          | intros ]).
  done.
Qed.

Lemma for_each_flag c g e ns : ∀ st (σ : store),
  lower (pi_modulus_flag c) ≠ "real"%string →
  for_each ns (iteration c g e) st σ
  = for_each ns (iteration (with_flag c "Complex") g e) st σ.
Proof.
  induction ns as [|n ns IH]; intros st σ H; simpl; [done|].
  apply bind_cong; [by apply iteration_flag|]. intros. by apply IH.
Qed.

(** C10. For every mode flag whose lowercased form is not ['real'] the call
    behaves as it does with ['Complex'], on every store and with every other
    argument: the same result or the same exception, and the same final
    store.  The flag is not examined at entry; each iteration lowercases it
    and compares it with ['real'], and nothing else depends on it, so no flag
    raises an error. *)
Theorem unrecognized_flag_is_complex c (lp lo ls : loc) (σ : store) :
  lower (pi_modulus_flag c) ≠ "real"%string →
  cdi_recon lp lo ls c σ = cdi_recon lp lo ls (with_flag c "Complex") σ.
Proof.
  intros H. unfold cdi_recon. apply bind_cong; [|done].
  unfold cdi_prefix. apply bind_cong; [done|].
  intros [[g e] st] σ'. apply bind_cong; [|done].
  by apply for_each_flag.
Qed.

End ModeFlag.

Lemma unrecognized_flag_is_complex_witness :
  cdi_recon 0 1 2 (config_2x2 "Reel" 3) σ_2x2
  = cdi_recon 0 1 2 (with_flag (config_2x2 "Reel" 3) "Complex") σ_2x2.
Proof.
  apply (unrecognized_flag_is_complex (K := Float64.kernel)).
  vm_compute. discriminate.
Defined.

(** The flag is compared after lowercasing: ['REAL'] selects the real mode. *)
Example lower_REAL : lower "REAL" = "real"%string.
Proof. reflexivity. Qed.

(** ** What a call may write *)

Section Frames.
Context {K : Numeric}.
Implicit Types (σ : store) (l : loc).

Lemma preserved_refl n0 lo σ : preserved n0 lo σ σ.
Proof. by split. Qed.

Lemma preserved_trans n0 lo σ1 σ2 σ3 :
  preserved n0 lo σ1 σ2 → preserved n0 lo σ2 σ3 → preserved n0 lo σ1 σ3.
Proof.
  intros [H1 F1] [H2 F2]. split; [lia|]. intros l Hl Hlo. by rewrite F2, F1.
Qed.

Lemma frames_ret {A} n0 lo (a : A) (Q : A → Prop) : Q a → frames n0 lo (mret a) Q.
Proof.
  intros HQ σ r σ' _ [= <- <-]. split; [apply preserved_refl|]. by intros ? [= <-].
Qed.

Lemma frames_lift {A} n0 lo (r : result A) : frames n0 lo (lift r) (λ _, True).
Proof. intros σ r' σ' _ [= <- <-]. split; [apply preserved_refl|done]. Qed.

Lemma frames_raise {A} n0 lo (x : exn) (Q : A → Prop) : frames n0 lo (lift (Raise x)) Q.
Proof. intros σ r' σ' _ [= <- <-]. split; [apply preserved_refl|done]. Qed.

Lemma frames_bind {A B} n0 lo (m : M A) (f : A → M B) (P : A → Prop) (Q : B → Prop) :
  frames n0 lo m P → (∀ a, P a → frames n0 lo (f a) Q) → frames n0 lo (m ≫= f) Q.
Proof.
  intros Hm Hf σ r σ' Hn Hrun. unfold mbind, M_bind in Hrun.
  destruct (m σ) as [[a|x] σ1] eqn:E.
  - destruct (Hm σ (Ok a) σ1 Hn E) as [Hp HP].
    destruct (Hf a (HP a eq_refl) σ1 r σ' ltac:(destruct Hp; lia) Hrun) as [Hp' HQ].
    split; [by eapply preserved_trans|done].
  - injection Hrun as <- <-. destruct (Hm σ (Raise x) σ1 Hn E) as [Hp _].
    split; [done|]. by intros.
Qed.

Lemma frames_weaken {A} n0 lo (m : M A) (P Q : A → Prop) :
  frames n0 lo m P → (∀ a, P a → Q a) → frames n0 lo m Q.
Proof. intros Hm H σ r σ' Hn Hrun. destruct (Hm σ r σ' Hn Hrun). split; auto. Qed.

Lemma frames_read n0 lo l : frames n0 lo (read l) (λ _, True).
Proof.
  intros σ r σ' _ Hrun. unfold read in Hrun.
  destruct (σ !! l); injection Hrun as <- <-; (split; [apply preserved_refl|done]).
Qed.

Lemma frames_alloc n0 lo v : frames n0 lo (alloc v) (λ l, n0 ≤ l).
Proof.
  intros σ r σ' Hn [= <- <-]. split.
  - split; [rewrite length_app; lia|]. intros l Hl _. apply lookup_app_l. lia.
  - by intros a [= <-].
Qed.

Lemma frames_write n0 lo l v : n0 ≤ l ∨ l = lo → frames n0 lo (write l v) (λ _, True).
Proof.
  intros Hl σ r σ' _ Hrun. unfold write in Hrun.
  destruct (σ !! l); injection Hrun as <- <-; (split; [|done]); [|apply preserved_refl].
  split; [by rewrite length_insert|]. intros l' Hl' Hlo.
  apply list_lookup_insert_ne. lia.
Qed.

End Frames.

Create HintDb frdb.

(** The frame of the head of a computation, and of a whole computation. *)
Ltac fr_head :=
  first [ apply frames_read | apply frames_alloc | apply frames_lift
        | apply frames_write; lia
        | solve [eauto with frdb] ].

Ltac fr_step :=
  lazymatch goal with
  | |- frames _ _ (mbind _ _) _ => eapply frames_bind; [fr_head|cbv beta; intros ? ?]
  | |- frames _ _ (mret _) _ => apply frames_ret; cbv beta; try done; try lia
  | |- frames _ _ (if ?b then _ else _) _ => destruct b
  | |- frames _ _ (lift (Raise _)) _ => apply frames_raise
  | |- frames _ _ _ _ =>
      eapply frames_weaken; [fr_head|cbv beta; intros; try done; try lia]
  end.

Ltac fr := repeat fr_step.

Section FrameSpecs.
Context {K : Numeric}.
Implicit Types (σ : store) (l : loc).

Lemma frames_np_array n0 lo l : frames n0 lo (np_array l) (λ l', n0 ≤ l').
Proof. unfold np_array. fr. Qed.

Lemma frames_np_zeros n0 lo n : frames n0 lo (np_zeros n) (λ l', n0 ≤ l').
Proof. unfold np_zeros. fr. Qed.

Lemma frames_setitem_mask n0 lo l m vals :
  n0 ≤ l ∨ l = lo → frames n0 lo (setitem_mask l m vals) (λ _, True).
Proof. intros. unfold setitem_mask. fr. Qed.

Lemma frames_setitem_mask_scalar n0 lo l m c :
  n0 ≤ l ∨ l = lo → frames n0 lo (setitem_mask_scalar l m c) (λ _, True).
Proof. intros. unfold setitem_mask_scalar. fr. Qed.

Lemma frames_setitem_int n0 lo l n c :
  n0 ≤ l ∨ l = lo → frames n0 lo (setitem_int l n c) (λ _, True).
Proof. intros. unfold setitem_int. fr. Qed.

End FrameSpecs.

#[export] Hint Resolve frames_np_array frames_np_zeros : frdb.
#[export] Hint Extern 1 (frames _ _ (setitem_mask _ _ _) _) =>
  apply frames_setitem_mask; lia : frdb.
#[export] Hint Extern 1 (frames _ _ (setitem_mask_scalar _ _ _) _) =>
  apply frames_setitem_mask_scalar; lia : frdb.
#[export] Hint Extern 1 (frames _ _ (setitem_int _ _ _) _) =>
  apply frames_setitem_int; lia : frdb.

Section FrameFunctions.
Context {K : Numeric}.
Implicit Types (σ : store) (l : loc).

Lemma frames_pi_modulus n0 lo lr lp off : frames n0 lo (pi_modulus lr lp off) (λ l', n0 ≤ l').
Proof. unfold pi_modulus. fr. Qed.

Lemma frames_find_support n0 lo l s t : frames n0 lo (find_support l s t) (λ l', n0 ≤ l').
Proof. unfold find_support. fr. Qed.

Lemma frames_pi_support n0 lo l idx : frames n0 lo (pi_support l idx) (λ l', n0 ≤ l').
Proof. unfold pi_support. fr. Qed.

Lemma frames_cal_relative_error n0 lo l1 l2 :
  frames n0 lo (cal_relative_error l1 l2) (λ _, True).
Proof. unfold cal_relative_error. fr. Qed.

End FrameFunctions.

#[export] Hint Resolve frames_pi_modulus frames_find_support frames_pi_support
  frames_cal_relative_error : frdb.

Section FrameDriver.
Context {K : Numeric}.
Implicit Types (σ : store) (l : loc).

Lemma frames_cal_diff_error n0 lo l lp : frames n0 lo (cal_diff_error l lp) (λ _, True).
Proof. unfold cal_diff_error. fr. Qed.

Lemma frames_real_mode n0 lo c l : n0 ≤ l → frames n0 lo (real_mode c l) (λ l', n0 ≤ l').
Proof. intros. unfold real_mode. fr. Qed.

Lemma frames_mix n0 lo c1 la c2 lb : frames n0 lo (mix c1 la c2 lb) (λ l', n0 ≤ l').
Proof. unfold mix. fr. Qed.

Lemma frames_iadd n0 lo l y : n0 ≤ l ∨ l = lo → frames n0 lo (iadd l y) (λ _, True).
Proof. intros. unfold iadd. fr. Qed.

Lemma frames_update_object n0 lo c g e st :
  env_ok n0 lo e → frames n0 lo (update_object c g e st) (λ _, True).
Proof.
  intros (Hlo & _). unfold update_object.
  do 2 fr_step.
  eapply frames_bind; [by apply frames_real_mode|cbv beta; intros ? ?].
  eapply frames_bind; [apply frames_mix|cbv beta; intros ? ?].
  do 2 fr_step.
  eapply frames_bind; [apply frames_mix|cbv beta; intros ? ?].
  fr_step.
  eapply frames_bind; [by apply frames_real_mode|cbv beta; intros ? ?].
  do 3 fr_step.
  eapply frames_bind; [apply frames_iadd; by right|cbv beta; intros ? ?].
  fr.
Qed.

Lemma frames_record_errors n0 lo e n l_old :
  env_ok n0 lo e → frames n0 lo (record_errors e n l_old) (λ _, True).
Proof.
  intros (Hlo & ? & ? & ?). unfold record_errors. fr_step. fr_step.
  eapply frames_bind; [apply frames_cal_diff_error|cbv beta; intros ? ?].
  fr.
Qed.

Lemma frames_shrinkwrap n0 lo c e n st :
  env_ok n0 lo e → n0 ≤ obj_avg st →
  frames n0 lo (shrinkwrap c e n st) (λ st', n0 ≤ obj_avg st').
Proof. intros (Hlo & ? & ? & ?) ?. unfold shrinkwrap. fr. Qed.

Lemma frames_average n0 lo c e n st :
  n0 ≤ obj_avg st → frames n0 lo (average c e n st) (λ st', n0 ≤ obj_avg st').
Proof.
  intros. unfold average. fr_step; [|fr]. fr_step.
  eapply frames_bind; [apply frames_iadd; by left|cbv beta; intros ? ?]. fr.
Qed.

Lemma frames_iteration n0 lo c g e n st :
  env_ok n0 lo e → n0 ≤ obj_avg st →
  frames n0 lo (iteration c g e n st) (λ st', n0 ≤ obj_avg st').
Proof.
  intros He Ha. unfold iteration.
  eapply frames_bind; [by apply frames_update_object|cbv beta; intros ? ?].
  eapply frames_bind; [by apply frames_record_errors|cbv beta; intros ? ?].
  eapply frames_bind; [by apply frames_shrinkwrap|cbv beta; intros ? ?].
  by apply frames_average.
Qed.

Lemma frames_for_each n0 lo c g e ns : ∀ st,
  env_ok n0 lo e → n0 ≤ obj_avg st →
  frames n0 lo (for_each ns (iteration c g e) st) (λ st', n0 ≤ obj_avg st').
Proof.
  induction ns as [|n ns IH]; intros st He Ha; simpl.
  - by apply frames_ret.
  - eapply frames_bind; [by apply frames_iteration|cbv beta; intros ? ?]. by apply IH.
Qed.

Lemma frames_cdi_entry n0 lo lp ls c :
  frames n0 lo (cdi_entry lp lo ls c) (λ r, env_ok n0 lo r.1.2 ∧ n0 ≤ obj_avg r.2).
Proof. unfold cdi_entry. fr. Qed.

Lemma frames_cdi_recon n0 lo lp ls c : frames n0 lo (cdi_recon lp lo ls c) (λ _, True).
Proof.
  unfold cdi_recon, cdi_prefix.
  eapply frames_bind.
  - eapply frames_bind; [apply frames_cdi_entry|]. intros [[g e] st] [He Ha].
    eapply frames_bind; [by apply frames_for_each|cbv beta; intros ? ?].
    apply (frames_ret _ _ _ (λ r, n0 ≤ obj_avg r.2)). done.
  - intros [e st] Ha. unfold cdi_finish. fr.
Qed.

End FrameDriver.

(** ** The caller's arrays *)

Section CallerArrays.
Context {K : Numeric}.

(** C9. After a call of [cdi_recon], however it ends, every array the
    caller's store held is as it was before the call, but for the array
    passed as the initial object: the pattern is copied at entry and only the
    copy is read, the support is only read, and the writes other than
    [sample_obj += ...] go to arrays made during the call.  So the pattern
    and the initial support hold the same values after the call as before
    it. *)
Theorem caller_arrays_preserved (σ : store) (lp lo ls : loc) c r σ' :
  cdi_recon lp lo ls c σ = (r, σ') →
  (∀ l, l < length σ → l ≠ lo → σ' !! l = σ !! l)
  ∧ (lp < length σ → lp ≠ lo → σ' !! lp = σ !! lp)
  ∧ (ls < length σ → ls ≠ lo → σ' !! ls = σ !! ls).
Proof.
  intros Hrun.
  destruct (frames_cdi_recon (length σ) lo lp ls c σ r σ' ltac:(done) Hrun) as [[_ H] _].
  auto.
Qed.

End CallerArrays.

Lemma caller_arrays_preserved_witness :
  (cdi_recon 0 1 2 (config_2x2 "Complex" 3) σ_2x2).2 !! 0 = σ_2x2 !! 0
  ∧ (cdi_recon 0 1 2 (config_2x2 "Complex" 3) σ_2x2).2 !! 2 = σ_2x2 !! 2.
Proof.
  destruct (caller_arrays_preserved (K := Float64.kernel) σ_2x2 0 1 2
              (config_2x2 "Complex" 3) _ _ (surjective_pairing _)) as (H & _).
  split; apply H; simpl; lia.
Defined.

(** ** The update of the object *)

Section Update.
Context {K : Numeric} {L : NumericLaws K}.
Implicit Types (σ : store) (P O S : ndarray num).

(** One more iteration from the state the first [n] iterations reach. *)
Lemma cdi_step_ok c lp lo ls P O S σ n :
  inputs_ok σ lp lo ls P O S → fis_zero (beta c) = false →
  (0 ≤ n_iterations c)%Z → n < Z.to_nat (n_iterations c) →
  ∃ st σ1 st' σ2,
    cdi_prefix lp lo ls c n σ = (Ok (the_env (length σ) lo, st), σ1)
    ∧ rep (length σ) lo (Z.to_nat (n_iterations c)) P st (state_after c P O S n) σ1
    ∧ iteration c (the_gammas c) (the_env (length σ) lo) n st σ1 = (Ok st', σ2)
    ∧ cdi_prefix lp lo ls c (Datatypes.S n) σ = (Ok (the_env (length σ) lo, st'), σ2)
    ∧ rep (length σ) lo (Z.to_nat (n_iterations c)) P st'
          (state_after c P O S (Datatypes.S n)) σ2
    ∧ length σ1 ≤ length σ2
    ∧ (∀ l, l < length σ1 → l ≠ lo → l ≠ length σ + 1 → l ≠ length σ + 2 →
            l ≠ length σ + 3 → l ≠ length σ + 5 → σ2 !! l = σ1 !! l)
    ∧ (if sw_due c n
       then length σ1 ≤ sup st'
            ∧ σ2 !! sup st' = Some (a_sup_old (state_after c P O S (Datatypes.S n)))
       else sup st' = sup st ∧ sup_old st' = sup_old st).
Proof.
  intros Hin Hb HN Hn.
  destruct (cdi_prefix_ok c lp lo ls P O S σ n Hin Hb HN ltac:(lia))
    as (st & σ1 & Hpre & Hrep & _).
  pose proof Hin as [Hp Ho Hs HO HS WP WO WS Hne HC].
  assert (good P (Z.to_nat (n_iterations c)) (state_after c P O S n)) as Hg
    by (by apply good_state_after).
  destruct (wp_iteration c (length σ) lo _ P st _ σ1 n
              (λ st' σ2,
                 rep (length σ) lo (Z.to_nat (n_iterations c)) P st'
                     (state_after c P O S (Datatypes.S n)) σ2
                 ∧ length σ1 ≤ length σ2
                 ∧ (∀ l, l < length σ1 → l ≠ lo → l ≠ length σ + 1 → l ≠ length σ + 2 →
                         l ≠ length σ + 3 → l ≠ length σ + 5 → σ2 !! l = σ1 !! l)
                 ∧ (if sw_due c n
                    then length σ1 ≤ sup st'
                         ∧ σ2 !! sup st'
                           = Some (a_sup_old (state_after c P O S (Datatypes.S n)))
                    else sup st' = sup st ∧ sup_old st' = sup_old st))
              WP Hne Hn Hg Hrep)
    as (st' & σ2 & Hit & Hrep' & Hlen & Hfr & Hsw).
  { intros st' σ2 Hr Hl Hf Hs'. rewrite state_after_S. done. }
  exists st, σ1, st', σ2. split_and!; try done.
  rewrite cdi_prefix_S. unfold mbind, M_bind. rewrite Hpre, Hit. done.
Qed.


End Update.

Lemma inputs_ok_2x2 :
  inputs_ok σ_2x2 0 1 2
    (Float64.reals [2; 2] [4; 0; 2; 0]%Z)
    (Float64.complexes [2; 2] [(1, 0); (2, 1); (0, 0); (1, -1)]%Z)
    (Float64.reals [2; 2] [1; 1; 0; 1]%Z).
Proof. split; (reflexivity || discriminate). Defined.


(** ** The shrinkwrap schedule *)

Section Schedule.
Context {K : Numeric} {L : NumericLaws K}.
Implicit Types (σ : store) (P O S : ndarray num).

Lemma np_sum_zeros (a : ndarray num) : np_sum (zeros_like a) = of_Z 0.
Proof.
  unfold np_sum, zeros_like, nd_map. cbn [data].
  induction (data a) as [|x l IH]; simpl; [done|]. by rewrite fadd_0_0.
Qed.

Lemma sup_old_after c P O S n :
  a_sup_old (state_after c P O S n) = prev_support c P O S n.
Proof.
  unfold prev_support. induction n as [|n IH]; [done|].
  rewrite state_after_S at 1. simpl. destruct (sw_due c n); [|done].
  by rewrite state_after_S.
Qed.

Lemma sup_error_after c P O S k n :
  wf P → shape O = shape P → wf O → shape S = shape P → wf S →
  is_complex_array O = true → n < Z.to_nat (n_iterations c) →
  a_sup_error (state_after c P O S k) !! n
  = Some (if bool_decide (n < k) && sw_due c n
          then np_sum (a_sup_old (state_after c P O S n)) else of_Z 0).
Proof.
  intros WP HO WO HS WS HC Hn. induction k as [|k IH].
  - simpl. by apply lookup_replicate_2.
  - rewrite state_after_S. unfold step_val at 1. cbn [a_sup_error].
    pose proof (good_state_after c P O S k WP HO WO HS WS HC) as Hg.
    destruct (decide (n = k)) as [->|Hne].
    + rewrite bool_decide_eq_true_2 by lia. simpl.
      destruct (sw_due c k).
      * apply list_lookup_insert_eq. destruct Hg. lia.
      * rewrite IH. by rewrite bool_decide_eq_false_2 by lia.
    + assert (bool_decide (n < Datatypes.S k) = bool_decide (n < k)) as ->
        by (apply bool_decide_ext; lia).
      destruct (sw_due c k); [|done]. by rewrite list_lookup_insert_ne.
Qed.

(** With arrays of one shape the call returns, and the store it leaves
    holds the values of [state_after] for all the iterations. *)
Lemma cdi_recon_ok c lp lo ls P O S σ :
  inputs_ok σ lp lo ls P O S → fis_zero (beta c) = false → (0 ≤ n_iterations c)%Z →
  let N := Z.to_nat (n_iterations c) in
  let a := state_after c P O S N in
  ∃ st σ1,
    cdi_prefix lp lo ls c N σ = (Ok (the_env (length σ) lo, st), σ1)
    ∧ rep (length σ) lo N P st a σ1
    ∧ cdi_recon lp lo ls c σ
      = (Ok (length σ1, errors (the_env (length σ) lo)),
         σ1 ++ [div_scalar (a_avg a) (of_Z (a_avg_i a))]).
Proof.
  intros Hin Hb HN N a.
  destruct (cdi_prefix_ok c lp lo ls P O S σ N Hin Hb HN ltac:(done))
    as (st & σ1 & Hpre & Hrep & _).
  exists st, σ1. split_and!; try done.
  unfold cdi_recon, mbind at 1, M_bind at 1. fold N. rewrite Hpre.
  apply wp_eq. unfold cdi_finish.
  destruct Hrep as [_ _ _ _ _ _ _ Hal Hav _ _ _ Hai _].
  wp_go wp_read; [by rewrite Hal|]. wp_go wp_alloc. apply wp_ret.
  by rewrite Hai.
Qed.

(** Shrinkwrap is due when it is enabled, [n] lies in the inclusive window
    and [n mod sw_step] is zero. *)
Lemma sw_due_iff c n :
  sw_due c n = true ↔
  sw_flag c = true
  ∧ fle (fmul (sw_start c) (of_Z (n_iterations c))) (of_Z (Z.of_nat n)) = true
  ∧ fle (of_Z (Z.of_nat n)) (fmul (sw_end c) (of_Z (n_iterations c))) = true
  ∧ np_mod (Z.of_nat n) (sw_step c) = 0%Z.
Proof.
  unfold sw_due. rewrite !andb_true_iff, bool_decide_eq_true. tauto.
Qed.


End Schedule.

(** The schedule of the specification: with a window of 0.2 to 0.8, a step
    of 10 and 100 iterations, shrinkwrap is due at 20, 30, ..., 80. *)
Example schedule_of_100 :
  filter (λ n, sw_due (K := Float64.kernel)
                 {| beta := Float64.Re 0x1.2666666666666p+0;
                    start_avg := Float64.Re 0x1.999999999999ap-1;
                    pi_modulus_flag := "Complex"; sw_flag := true;
                    sw_sigma := Float64.Re 0.5;
                    sw_threshold := Float64.Re 0x1.999999999999ap-4;
                    sw_start := Float64.Re 0x1.999999999999ap-3;
                    sw_end := Float64.Re 0x1.999999999999ap-1;
                    sw_step := 10; n_iterations := 100 |} n = true)
         (seq 0 100)
  = [20; 30; 40; 50; 60; 70; 80].
Proof. vm_compute. reflexivity. Qed.


(** ** Runs that raise *)

Section Raises.
Context {K : Numeric} {L : NumericLaws K}.
Implicit Types (σ : store) (P O S : ndarray num).

Lemma raises_head {A B} (m : M A) (f : A → M B) σ x Q :
  raises m σ x Q → raises (m ≫= f) σ x Q.
Proof.
  intros (σ' & Hm & HQ). exists σ'. split; [|done]. unfold mbind, M_bind. by rewrite Hm.
Qed.

Lemma raises_tail {A B} (m : M A) (f : A → M B) σ x Q :
  wp m σ (λ a σ', raises (f a) σ' x Q) → raises (m ≫= f) σ x Q.
Proof.
  intros (a & σ1 & Hm & σ' & Hf & HQ). exists σ'. split; [|done].
  unfold mbind, M_bind. by rewrite Hm.
Qed.

Lemma raises_lift {A} σ x (Q : store → Prop) : Q σ → raises (lift (A := A) (Raise x)) σ x Q.
Proof. intros. by exists σ. Qed.

(** A pattern of another shape than the object: the boolean index taken
    from the pattern does not fit the transformed object. *)
Lemma pi_modulus_raises (lr lp : loc) (rp dp : ndarray num) off σ Q :
  σ !! lr = Some rp → σ !! lp = Some dp → shape rp ≠ shape dp → 0 ∉ shape rp →
  (∀ temps, Q (σ ++ temps)) →
  raises (pi_modulus lr lp off) σ IndexError Q.
Proof.
  intros Hr Hp Hs Hne HQ. unfold pi_modulus.
  apply raises_tail. wp_go wp_read; [done|].
  apply raises_tail. wp_go wp_lift; [by apply fft_helper_ok|].
  fold (fourier_scaled rp).
  apply raises_tail. wp_go wp_alloc.
  apply raises_tail. wp_go wp_read; [lkp|].
  apply raises_tail. wp_go wp_lift. { unfold getitem_mask. by rewrite decide_True. }
  apply raises_tail. wp_go wp_read; [lkp|].
  apply raises_head. unfold getitem_mask.
  rewrite decide_False.
  - by apply raises_lift.
  - cbn [np_gt nd_map shape]. rewrite fourier_scaled_shape. congruence.
Qed.

(** An index array of another shape than the array to cut. *)
Lemma pi_support_raises (l : loc) (x : ndarray num) (idx : ndarray bool) σ Q :
  σ !! l = Some x → shape idx ≠ shape x →
  (∀ temps, Q (σ ++ temps)) →
  raises (pi_support l idx) σ IndexError Q.
Proof.
  intros Hl Hs HQ. unfold pi_support.
  apply raises_tail. wp_go wp_np_array; [done|].
  apply raises_head. unfold setitem_mask_scalar.
  apply raises_tail. wp_go wp_read; [lkp|].
  rewrite decide_False by done. by apply raises_lift.
Qed.

Lemma update_object_raises c g n0 lo st (obj : ndarray num) P σ Q :
  lo < n0 → σ !! lo = Some obj → σ !! n0 = Some P → wf obj → wf P → 0 ∉ shape obj →
  ¬ (shape obj = shape P ∧ shape (sup_out_index st) = shape P) →
  (∀ temps, Q (σ ++ temps)) →
  raises (update_object c g (the_env n0 lo) st) σ IndexError Q.
Proof.
  intros Hlt Ho Hp Wo Wp Hne Hs HQ.
  unfold update_object, the_env. cbn [sample_obj diffracted_pattern].
  apply raises_tail. wp_go wp_np_array; [done|].
  destruct (decide (shape obj = shape P)) as [HoP|HoP].
  - assert (shape (sup_out_index st) ≠ shape P) as Hidx by tauto.
    apply raises_tail. wp_go wp_pi_modulus; [lkp|lkp|shp|wfs|wfs|done|].
    apply raises_tail. wp_go wp_real_mode; [lkp| |]; intros _.
    + apply raises_tail. wp_go wp_mix; [lkp|lkp|shp|].
      apply raises_head. eapply pi_support_raises; [lkp|shp|].
      intros temps. rewrite <- !app_assoc. apply HQ.
    + apply raises_tail. wp_go wp_mix; [lkp|lkp|shp|].
      apply raises_head. eapply pi_support_raises; [lkp|shp|].
      intros temps. rewrite <- !app_assoc. apply HQ.
  - apply raises_head. eapply pi_modulus_raises; [lkp|lkp|done|done|].
    intros temps. rewrite <- !app_assoc. apply HQ.
Qed.

End Raises.

(** ** What the entry point checks *)

Section Validation.
Context {K : Numeric} {L : NumericLaws K}.
Implicit Types (σ : store) (P O S : ndarray num).

Lemma cdi_entry_raises c (lp lo ls : loc) P S σ :
  σ !! lp = Some P → σ !! ls = Some S →
  fis_zero (beta c) = false → (n_iterations c < 0)%Z →
  cdi_entry lp lo ls c σ = (Raise ValueError, σ ++ [P]).
Proof.
  intros Hp Hs Hb HN.
  assert (raises (cdi_entry lp lo ls c) σ ValueError (λ σ', σ' = σ ++ [P]))
    as (σ' & Hrun & ->); [|done].
  unfold cdi_entry.
  apply raises_tail. wp_go wp_np_array; [done|].
  apply raises_tail. wp_go wp_lift; [unfold truediv; by rewrite Hb|].
  apply raises_tail. wp_go wp_lift; [unfold truediv; by rewrite Hb|].
  apply raises_tail. wp_go wp_read; [lkp|].
  apply raises_head. unfold np_zeros. rewrite decide_True by done.
  by apply raises_lift.
Qed.

(** With [beta = 0] the entry lines fail at [-1/beta], the copy of the
    pattern made. *)
Lemma cdi_entry_zero_beta c (lp lo ls : loc) P σ :
  σ !! lp = Some P → fis_zero (beta c) = true →
  cdi_entry lp lo ls c σ = (Raise ZeroDivisionError, σ ++ [P]).
Proof.
  intros Hp Hb.
  assert (raises (cdi_entry lp lo ls c) σ ZeroDivisionError (λ σ', σ' = σ ++ [P]))
    as (σ' & Hrun & ->); [|done].
  unfold cdi_entry.
  apply raises_tail. wp_go wp_np_array; [done|].
  apply raises_head. unfold truediv. rewrite Hb. by apply raises_lift.
Qed.

Lemma bind_raise {A B} (m : M A) (f : A → M B) (σ σ' : store) x :
  m σ = (Raise x, σ') → (m ≫= f) σ = (Raise x, σ').
Proof. intros H. unfold mbind, M_bind. by rewrite H. Qed.


End Validation.



(** * Further properties of the module *)

(** ** The operators write no array of their caller *)

Section OperatorsPure.
Context {K : Numeric}.
Implicit Types (σ : store) (l : loc).

Lemma frames_all {A} (m : M A) (Q : A → Prop) σ l :
  frames (length σ) (length σ) m Q → l < length σ → (m σ).2 !! l = σ !! l.
Proof.
  intros Hm Hl.
  destruct (Hm σ (m σ).1 (m σ).2 ltac:(done) (surjective_pairing _)) as [[_ H] _].
  apply H; lia.
Qed.

(** X1. [pi_modulus], [find_support] and [pi_support] write no array that
    existed before the call, whatever their arguments are and whether they
    return or raise: the transformed array that [pi_modulus] overwrites at
    the positive entries of the pattern, the mask of [find_support] and the
    copy that [pi_support] zeroes are arrays made by the call. *)
Theorem projections_write_nothing σ l (lr lp ls lx : loc) (off sigma t : num)
    (idx : ndarray bool) :
  l < length σ →
  (pi_modulus lr lp off σ).2 !! l = σ !! l
  ∧ (find_support ls sigma t σ).2 !! l = σ !! l
  ∧ (pi_support lx idx σ).2 !! l = σ !! l.
Proof.
  intros Hl. split_and!.
  - by eapply frames_all; [apply frames_pi_modulus|].
  - by eapply frames_all; [apply frames_find_support|].
  - by eapply frames_all; [apply frames_pi_support|].
Qed.

(** X2. [cal_relative_error] leaves the store as it found it, and
    [cal_diff_error] only adds to it the array of Fourier magnitudes it
    compares with the pattern; both whatever their arguments are and whether
    they return or raise. *)
Theorem error_measures_write_nothing σ (l1 l2 lo lp : loc) :
  (cal_relative_error l1 l2 σ).2 = σ
  ∧ ∃ temps, (cal_diff_error lo lp σ).2 = σ ++ temps ∧ length temps ≤ 1.
Proof.
  assert (∀ σ0 l1 l2, (cal_relative_error l1 l2 σ0).2 = σ0) as Hrel.
  { intros σ0 a b. unfold cal_relative_error, mbind, M_bind, read, lift.
    destruct (σ0 !! a) as [xo|]; [|done]. destruct (σ0 !! b) as [xn|]; [|done].
    by destruct (ew fsub xn xo). }
  split; [apply Hrel|].
  unfold cal_diff_error, mbind, M_bind, read, alloc, lift.
  destruct (σ !! lo) as [so|]; [destruct (_fft_helper so) as [f|x]|].
  - eexists [_]. by rewrite Hrel.
  - exists []. split; [by rewrite app_nil_r|simpl; lia].
  - exists []. split; [by rewrite app_nil_r|simpl; lia].
Qed.

End OperatorsPure.

Lemma projections_write_nothing_witness :
  (pi_modulus 1 0 eps12 σ_2x2).2 !! 1 = σ_2x2 !! 1
  ∧ (find_support 1 (Float64.Re 0.5) (Float64.Re 0.5) σ_2x2).2 !! 1 = σ_2x2 !! 1
  ∧ (pi_support 1 (mk_nd [2] [true; false]) σ_2x2).2 !! 1 = σ_2x2 !! 1.
Proof.
  apply (projections_write_nothing (K := Float64.kernel) σ_2x2 1 1 0 1 1).
  simpl. lia.
Defined.

(** ** Index arrays of another shape *)

Section Mismatch.
Context {K : Numeric} {L : NumericLaws K}.
Implicit Types (σ : store) (l : loc).

(** X3. With an index array of the dimensionality of [x] and of another
    shape, [pi_support] raises an IndexError; the copy of [x] has been made
    by then, and [x] is as it was. *)
Theorem pi_support_index_mismatch σ l (x : ndarray num) (index_v : ndarray bool) :
  σ !! l = Some x →
  length (shape index_v) = length (shape x) → shape index_v ≠ shape x →
  pi_support l index_v σ = (Raise IndexError, σ ++ [x]).
Proof.
  intros Hl _ Hs.
  unfold pi_support, np_array, setitem_mask_scalar, mbind, M_bind, read, alloc.
  rewrite Hl. rewrite list_lookup_middle by done. by rewrite decide_False.
Qed.

(** X4. With an object that has no empty axis and a pattern of the
    dimensionality of the object and of another shape, [pi_modulus] raises an
    IndexError when it cuts the transformed object with the index array taken
    from the pattern; the transformed object has been made by then, and the
    caller's arrays are as they were. *)
Theorem pi_modulus_pattern_mismatch σ (lr lp : loc) (obj pattern : ndarray num) (off : num) :
  σ !! lr = Some obj → σ !! lp = Some pattern →
  length (shape obj) = length (shape pattern) → shape obj ≠ shape pattern →
  0 ∉ shape obj →
  ∃ T, _fft_helper obj = Ok T
       ∧ pi_modulus lr lp off σ
         = (Raise IndexError, σ ++ [div_scalar T (fsqrt (of_Z (Z.of_nat (np_size obj))))]).
Proof.
  intros Hr Hp _ Hs Hne. exists (fft_val obj). split; [by apply fft_helper_ok|].
  unfold pi_modulus, mbind, M_bind, read, alloc, lift.
  rewrite Hr. rewrite fft_helper_ok by done.
  rewrite lookup_app_l by (by eapply lookup_lt_Some). rewrite Hp.
  unfold getitem_mask at 1. rewrite decide_True by done.
  rewrite list_lookup_middle by done.
  unfold getitem_mask. rewrite decide_False; [done|].
  cbn [np_gt nd_map shape div_scalar]. rewrite fft_helper_shape. congruence.
Qed.

End Mismatch.

Lemma pi_support_index_mismatch_witness :
  pi_support 1 (mk_nd [2; 1] [true; false]) σ_2x2
  = (Raise IndexError, σ_2x2 ++ [Float64.complexes [2; 2] [(1, 0); (2, 1); (0, 0); (1, -1)]%Z]).
Proof.
  apply (pi_support_index_mismatch (K := Float64.kernel));
    [reflexivity|reflexivity|discriminate].
Defined.

Lemma pi_modulus_pattern_mismatch_witness :
  (pi_modulus 1 2 eps12 σ_mismatch).1 = Raise IndexError.
Proof.
  destruct (pi_modulus_pattern_mismatch (K := Float64.kernel) σ_mismatch 1 2
              (Float64.complexes [2; 2] [(1, 0); (2, 1); (0, 0); (1, -1)]%Z)
              (Float64.reals [2; 1] [1; 0]%Z) eps12)
    as (T & _ & Hrun);
    [reflexivity|reflexivity|reflexivity|discriminate
    |exact (bool_decide_unpack (0 ∉ [2; 2]) I)|].
  by rewrite Hrun.
Defined.

(** ** Two support projections *)

Section SupportCompose.
Context {K : Numeric}.
Implicit Types (σ : store) (l : loc).

Lemma pi_support_val_or (x : ndarray num) (i1 i2 : ndarray bool) :
  pi_support_val (pi_support_val x i1) i2 = pi_support_val x (nd_zip orb i1 i2).
Proof.
  unfold pi_support_val, nd_zip. cbn [shape data]. f_equal.
  generalize (data x) (data i2).
  induction (data i1) as [|b1 m1 IH]; intros [|v d] [|b2 m2]; simpl; try done.
  rewrite IH. by destruct b1, b2.
Qed.

Lemma pi_support_val_comm (x : ndarray num) (i1 i2 : ndarray bool) :
  pi_support_val (pi_support_val x i1) i2 = pi_support_val (pi_support_val x i2) i1.
Proof.
  unfold pi_support_val. cbn [shape data]. f_equal.
  generalize (data x) (data i2).
  induction (data i1) as [|b1 m1 IH]; intros [|v d] [|b2 m2]; simpl; try done.
  rewrite IH. by destruct b1, b2.
Qed.

(** X5. Two support projections in a row, with index arrays [i1] and [i2]
    of the shape of [x], return what one projection with the elementwise
    [i1 or i2] returns, and the order of the two does not matter: each call
    makes a new array, and [x] and the intermediate array are not written. *)
Theorem pi_support_twice σ l (x : ndarray num) (i1 i2 : ndarray bool) :
  σ !! l = Some x → shape i1 = shape x → shape i2 = shape x →
  ∃ y1 y2 y,
    pi_support l i1 σ = (Ok (length σ), σ ++ [y1])
    ∧ pi_support (length σ) i2 (σ ++ [y1]) = (Ok (length σ + 1), σ ++ [y1; y])
    ∧ pi_support l i2 σ = (Ok (length σ), σ ++ [y2])
    ∧ pi_support (length σ) i1 (σ ++ [y2]) = (Ok (length σ + 1), σ ++ [y2; y])
    ∧ pi_support l (nd_zip orb i1 i2) σ = (Ok (length σ), σ ++ [y]).
Proof.
  intros Hl H1 H2.
  exists (pi_support_val x i1), (pi_support_val x i2), (pi_support_val x (nd_zip orb i1 i2)).
  split_and!; apply wp_eq.
  - by wp_go wp_pi_support.
  - wp_go wp_pi_support; [by apply list_lookup_middle|done|].
    rewrite pi_support_val_or, length_app, <- app_assoc. done.
  - by wp_go wp_pi_support.
  - wp_go wp_pi_support; [by apply list_lookup_middle|done|].
    rewrite pi_support_val_comm, pi_support_val_or, length_app, <- app_assoc. done.
  - by wp_go wp_pi_support.
Qed.

End SupportCompose.

Lemma pi_support_twice_witness :
  ∃ y1 y2 y,
    pi_support 1 (mk_nd [2; 2] [true; false; false; false]) σ_2x2 = (Ok 3, σ_2x2 ++ [y1])
    ∧ pi_support 3 (mk_nd [2; 2] [false; false; false; true]) (σ_2x2 ++ [y1])
      = (Ok 4, σ_2x2 ++ [y1; y])
    ∧ pi_support 1 (mk_nd [2; 2] [false; false; false; true]) σ_2x2 = (Ok 3, σ_2x2 ++ [y2])
    ∧ pi_support 3 (mk_nd [2; 2] [true; false; false; false]) (σ_2x2 ++ [y2])
      = (Ok 4, σ_2x2 ++ [y2; y])
    ∧ pi_support 1 (mk_nd [2; 2] [true; false; false; true]) σ_2x2 = (Ok 3, σ_2x2 ++ [y]).
Proof.
  apply (pi_support_twice (K := Float64.kernel) σ_2x2 1
           (Float64.complexes [2; 2] [(1, 0); (2, 1); (0, 0); (1, -1)]%Z)
           (mk_nd [2; 2] [true; false; false; false])
           (mk_nd [2; 2] [false; false; false; true])); reflexivity.
Defined.

(** ** The Fourier pair, the other way round *)

Section FourierPairConverse.
Context {K : Numeric} {L : NumericLaws K}.


End FourierPairConverse.


(** ** The index outside the support *)

Section OutsideIndex.
Context {K : Numeric} {L : NumericLaws K}.

(** X7. The index array the driver takes from a new support,
    [new_sup < 1], is true exactly where the smoothed magnitude is not
    [>= t * max]: the mask of [find_support] holds 1 and 0 only, and 0 is
    below 1. *)
Theorem outside_index_of_find_support (so : ndarray num) (sigma t : num) :
  data so ≠ [] → wf so → flt (of_Z 0) (of_Z 1) = true →
  let conv_fun := gaussian_filter (nd_map fabs so) sigma in
  ∃ conv_max,
    np_max conv_fun = Ok conv_max
    ∧ np_lt (find_support_val so sigma t) (of_Z 1)
      = nd_map (λ v, negb (fle (fmul t conv_max) v)) conv_fun.
Proof.
  intros Hne Wo H01 conv_fun.
  assert (length (data conv_fun) = length (data so)) as Hlen.
  { apply wf_length_eq; [by apply smoothed_wf|done|apply smoothed_shape]. }
  destruct (np_max_ok conv_fun) as [mx Hmx].
  { intros E. rewrite E in Hlen. by destruct (data so). }
  exists mx. split; [done|].
  rewrite (find_support_val_eq _ _ _ mx) by done.
  unfold np_lt, threshold_mask, nd_map. cbn [shape data]. f_equal.
  rewrite <- list_fmap_compose. apply list_fmap_ext. intros i v _. simpl.
  destruct (fle (fmul t mx) v); simpl; [apply flt_irrefl|done].
Qed.

End OutsideIndex.

Lemma outside_index_of_find_support_witness :
  np_lt (find_support_val (Float64.complexes [2; 2] [(3, 4); (0, 1); (5, 0); (0, 0)]%Z)
           (Float64.Re 0x1.999999999999ap-4) (Float64.Re 0.5)) (of_Z 1)
  = mk_nd [2; 2] [false; true; false; true].
Proof.
  destruct (outside_index_of_find_support (K := Float64.kernel)
              (Float64.complexes [2; 2] [(3, 4); (0, 1); (5, 0); (0, 0)]%Z)
              (Float64.Re 0x1.999999999999ap-4) (Float64.Re 0.5))
    as (mx & Hmx & ->); [discriminate|reflexivity|reflexivity|].
  vm_compute in Hmx. injection Hmx as <-. vm_compute. reflexivity.
Defined.

(** ** A call with no iteration *)

Section ZeroIterations.
Context {K : Numeric}.
Implicit Types (σ : store) (P O S : ndarray num).

(** X8. With [n_iterations = 0] and a non-zero [beta] the call returns
    whatever the shapes of its arrays are (the object is never read): the
    three error arrays it returns are empty, the average is the accumulator
    of complex zeros, of the shape of the pattern, divided by the count 0,
    and no array of the caller is changed. *)
Theorem zero_iterations c (lp lo ls : loc) P S σ :
  σ !! lp = Some P → σ !! ls = Some S →
  n_iterations c = 0%Z → fis_zero (beta c) = false →
  ∃ avg errs σ',
    cdi_recon lp lo ls c σ = (Ok (avg, errs), σ')
    ∧ σ' !! obj_error errs = Some (mk_nd [0] [])
    ∧ σ' !! diff_error errs = Some (mk_nd [0] [])
    ∧ σ' !! sup_error errs = Some (mk_nd [0] [])
    ∧ σ' !! avg = Some (div_scalar (nd_map astype_complex (zeros_like P)) (of_Z 0))
    ∧ ∀ l, l < length σ → σ' !! l = σ !! l.
Proof.
  intros Hp Hs HN Hb.
  assert (cdi_recon lp lo ls c σ
          = (Ok (length σ + 6, errors (the_env (length σ) lo)),
             entry_store c σ P
             ++ [div_scalar (nd_map astype_complex (zeros_like P)) (of_Z 0)])) as Hrun.
  { unfold cdi_recon, cdi_prefix. unfold mbind at 1 2, M_bind at 1 2.
    rewrite (cdi_entry_ok c lp lo ls P S) by (done || lia).
    rewrite HN. change (Z.to_nat 0) with 0. cbn [seq for_each].
    unfold mret at 1, M_ret at 1, mbind at 1, M_bind at 1, mret at 1, M_ret at 1.
    apply wp_eq. unfold cdi_finish, entry_store, entry_locals. cbn [obj_avg avg_i].
    wp_go wp_read.
    { rewrite lookup_app_r by lia. by replace (length σ + 5 - length σ) with 5 by lia. }
    wp_go wp_alloc. apply wp_ret. split; [|done]. rewrite length_app. simpl.
    f_equal; lia. }
  do 3 eexists. split; [exact Hrun|].
  unfold entry_store. rewrite HN. change (Z.to_nat 0) with 0.
  cbn [the_env errors obj_error diff_error sup_error replicate].
  rewrite <- !app_assoc.
  split_and!.
  - rewrite lookup_app_r by lia. by replace (length σ + 1 - length σ) with 1 by lia.
  - rewrite lookup_app_r by lia. by replace (length σ + 2 - length σ) with 2 by lia.
  - rewrite lookup_app_r by lia. by replace (length σ + 3 - length σ) with 3 by lia.
  - rewrite lookup_app_r by lia. by replace (length σ + 6 - length σ) with 6 by lia.
  - intros l Hl. by apply lookup_app_l.
Qed.

End ZeroIterations.

Lemma zero_iterations_witness :
  ∃ avg errs σ',
    cdi_recon 0 1 2 (config_2x2 "Complex" 0) σ_mismatch = (Ok (avg, errs), σ')
    ∧ σ' !! obj_error errs = Some (mk_nd [0] [])
    ∧ σ' !! avg
      = Some (mk_nd [2; 2] [Float64.Cx nan nan; Float64.Cx nan nan;
                            Float64.Cx nan nan; Float64.Cx nan nan]).
Proof.
  destruct (zero_iterations (K := Float64.kernel) (config_2x2 "Complex" 0) 0 1 2
              (Float64.reals [2; 2] [4; 0; 2; 0]%Z) (Float64.reals [2; 1] [1; 0]%Z) σ_mismatch)
    as (avg & errs & σ' & Hrun & Hoe & _ & _ & Havg & _);
    [reflexivity|reflexivity|reflexivity|reflexivity|].
  exists avg, errs, σ'. split; [exact Hrun|]. split; [exact Hoe|]. exact Havg.
Defined.

(** ** The real mode *)

Section RealFlag.
Context {K : Numeric}.
Implicit Types (σ : store).

Lemma real_mode_ext c c' (x : loc) σ :
  is_real c = is_real c' → real_mode c x σ = real_mode c' x σ.
Proof. unfold real_mode, is_real. by intros ->. Qed.

Lemma iteration_real_flag c flag g e n st σ :
  is_real c = is_real (with_flag c flag) →
  iteration c g e n st σ = iteration (with_flag c flag) g e n st σ.
Proof.
  intros H. unfold iteration. apply bind_cong; [|done].
  unfold update_object.
  repeat (apply bind_cong;
          [ first [ reflexivity | by apply real_mode_ext ]
          | intros ]).
  done.
Qed.

Lemma for_each_real_flag c flag g e ns : ∀ st σ,
  is_real c = is_real (with_flag c flag) →
  for_each ns (iteration c g e) st σ
  = for_each ns (iteration (with_flag c flag) g e) st σ.
Proof.
  induction ns as [|n ns IH]; intros st σ H; simpl; [done|].
  apply bind_cong; [by apply iteration_real_flag|]. intros. by apply IH.
Qed.

(** X9. The mode flag is compared after lowercasing: with every flag whose
    lowercased form is ['real'] (['Real'], ['REAL'], ['rEaL'], ...) the call
    behaves as it does with ['real'], on every store and with every other
    argument: the same result or exception and the same final store. *)
Theorem real_flag_any_case c (lp lo ls : loc) σ :
  lower (pi_modulus_flag c) = "real"%string →
  cdi_recon lp lo ls c σ = cdi_recon lp lo ls (with_flag c "real") σ.
Proof.
  intros H. unfold cdi_recon. apply bind_cong; [|done].
  unfold cdi_prefix. apply bind_cong; [done|].
  intros [[g e] st] σ'. apply bind_cong; [|done].
  apply for_each_real_flag. unfold is_real. by rewrite H.
Qed.

End RealFlag.

Lemma real_flag_any_case_witness :
  cdi_recon 0 1 2 (config_2x2 "ReAL" 3) σ_2x2
  = cdi_recon 0 1 2 (with_flag (config_2x2 "ReAL" 3) "real") σ_2x2.
Proof.
  apply (real_flag_any_case (K := Float64.kernel)). reflexivity.
Defined.

(** ** What the loop keeps *)

Section LoopInvariant.
Context {K : Numeric} {L : NumericLaws K}.
Implicit Types (σ : store) (P O S : ndarray num).


End LoopInvariant.


(** ** The error arrays *)

Section ErrorHistory.
Context {K : Numeric} {L : NumericLaws K}.
Implicit Types (σ : store) (P O S : ndarray num).

Lemma obj_error_after c P O S k n :
  wf P → shape O = shape P → wf O → shape S = shape P → wf S →
  is_complex_array O = true → n < Z.to_nat (n_iterations c) →
  a_obj_error (state_after c P O S k) !! n
  = Some (if bool_decide (n < k)
          then relative_error_val (a_obj (state_after c P O S n))
                 (a_obj (state_after c P O S (Datatypes.S n)))
          else of_Z 0).
Proof.
  intros WP HO WO HS WS HC Hn. induction k as [|k IH].
  - simpl. by apply lookup_replicate_2.
  - rewrite state_after_S. unfold step_val at 1. cbn [a_obj_error].
    pose proof (good_state_after c P O S k WP HO WO HS WS HC) as Hg.
    destruct (decide (n = k)) as [->|Hne].
    + rewrite bool_decide_eq_true_2 by lia.
      rewrite list_lookup_insert_eq by (destruct Hg; lia).
      by rewrite state_after_S.
    + rewrite list_lookup_insert_ne by done. rewrite IH.
      by rewrite (bool_decide_ext (n < Datatypes.S k) (n < k)) by lia.
Qed.

Lemma diff_error_after c P O S k n :
  wf P → shape O = shape P → wf O → shape S = shape P → wf S →
  is_complex_array O = true → n < Z.to_nat (n_iterations c) →
  a_diff_error (state_after c P O S k) !! n
  = Some (if bool_decide (n < k)
          then diff_error_val (a_obj (state_after c P O S (Datatypes.S n))) P
          else of_Z 0).
Proof.
  intros WP HO WO HS WS HC Hn. induction k as [|k IH].
  - simpl. by apply lookup_replicate_2.
  - rewrite state_after_S. unfold step_val at 1. cbn [a_diff_error].
    pose proof (good_state_after c P O S k WP HO WO HS WS HC) as Hg.
    destruct (decide (n = k)) as [->|Hne].
    + rewrite bool_decide_eq_true_2 by lia.
      rewrite list_lookup_insert_eq by (destruct Hg; lia).
      by rewrite state_after_S.
    + rewrite list_lookup_insert_ne by done. rewrite IH.
      by rewrite (bool_decide_ext (n < Datatypes.S k) (n < k)) by lia.
Qed.


End ErrorHistory.


(** ** The average *)

Section Average.
Context {K : Numeric} {L : NumericLaws K}.
Implicit Types (σ : store) (P O S : ndarray num).

Lemma avg_after c P O S k :
  a_avg (state_after c P O S k)
  = foldl (nd_zip fadd) (nd_map astype_complex (zeros_like P))
      ((λ n, a_obj (state_after c P O S (Datatypes.S n)))
         <$> filter (λ n, avg_due c n = true) (seq 0 k))
  ∧ a_avg_i (state_after c P O S k)
    = Z.of_nat (length (filter (λ n, avg_due c n = true) (seq 0 k))).
Proof.
  induction k as [|k [IH1 IH2]]; [done|].
  rewrite seq_S, list.filter_app, fmap_app, foldl_app, length_app.
  rewrite <- IH1. change (0 + k) with k. rewrite filter_cons, filter_nil.
  rewrite (state_after_S c P O S k). unfold step_val at 1 2. cbn [a_avg a_avg_i].
  destruct (decide (avg_due c k = true)) as [E|E].
  - rewrite E. simpl. rewrite state_after_S. split; [done|lia].
  - apply not_true_is_false in E. rewrite E. simpl. split; [done|lia].
Qed.


End Average.


(** ** Shrinkwrap switched off *)

Section ShrinkwrapOff.
Context {K : Numeric} {L : NumericLaws K}.
Implicit Types (σ : store) (P O S : ndarray num).

Lemma sw_due_off c n : sw_flag c = false → sw_due c n = false.
Proof. unfold sw_due. by intros ->. Qed.

Lemma state_after_off c P O S k :
  sw_flag c = false →
  a_idx (state_after c P O S k) = np_lt S (of_Z 1)
  ∧ a_sup_error (state_after c P O S k) = replicate (Z.to_nat (n_iterations c)) (of_Z 0).
Proof.
  intros Hoff. induction k as [|k [IH1 IH2]]; [done|].
  rewrite state_after_S. unfold step_val. cbn [a_idx a_sup_error].
  by rewrite sw_due_off.
Qed.

Lemma sup_off c (lp lo ls : loc) P O S σ k :
  sw_flag c = false →
  inputs_ok σ lp lo ls P O S → fis_zero (beta c) = false →
  (0 ≤ n_iterations c)%Z → k ≤ Z.to_nat (n_iterations c) →
  ∃ st σk,
    cdi_prefix lp lo ls c k σ = (Ok (the_env (length σ) lo, st), σk)
    ∧ sup st = ls
    ∧ rep (length σ) lo (Z.to_nat (n_iterations c)) P st (state_after c P O S k) σk.
Proof.
  intros Hoff Hin Hb HN. induction k as [|k IH]; intros Hk.
  - destruct (cdi_prefix_ok c lp lo ls P O S σ 0 Hin Hb HN Hk) as (st & σ0 & Hrun & Hrep & _).
    exists st, σ0. split_and!; [done| |done].
    destruct Hin as [Hp _ Hs _ _ _ _ _ _ _].
    unfold cdi_prefix in Hrun. unfold mbind at 1, M_bind at 1 in Hrun.
    rewrite (cdi_entry_ok c lp lo ls P S) in Hrun by done.
    simpl in Hrun. by injection Hrun as <- <-.
  - destruct IH as (st0 & σ0 & Hrun0 & Hsup0 & _); [lia|].
    destruct (cdi_step_ok c lp lo ls P O S σ k Hin Hb HN ltac:(lia))
      as (st & σ1 & st' & σ2 & Hpre & _ & _ & Hpre' & Hrep' & _ & _ & Hsw).
    rewrite sw_due_off in Hsw by done. destruct Hsw as [Hsup _].
    rewrite Hrun0 in Hpre. injection Hpre as <- <-.
    exists st', σ2. split_and!; [done|congruence|done].
Qed.


End ShrinkwrapOff.



(** ** The arrays a call returns *)

Section Returned.
Context {K : Numeric}.
Implicit Types (σ : store).

Lemma cdi_entry_inv (lp lo ls : loc) c σ g e st σ0 :
  cdi_entry lp lo ls c σ = (Ok (g, e, st), σ0) →
  e = the_env (length σ) lo ∧ length σ0 = length σ + 6.
Proof.
  unfold cdi_entry, truediv, np_array, np_zeros, mbind, M_bind, read, alloc, lift, mret, M_ret.
  destruct (σ !! lp) as [P|]; [|done].
  destruct (fis_zero (beta c)); [done|].
  destruct ((σ ++ [P]) !! ls) as [S|]; [|done].
  destruct (decide (n_iterations c < 0)%Z); [done|].
  match goal with
  | |- context [?s !! length σ] =>
      replace (s !! length σ) with (Some P)
  end.
  2:{ symmetry. rewrite <- !app_assoc. by apply list_lookup_middle. }
  intros [= <- <- <- <-]. unfold the_env.
  repeat (rewrite !length_app; simpl). split; [|lia].
  do 2 f_equal; lia.
Qed.

(** X14. Whenever [cdi_recon] returns, the three error arrays and the
    average it returns are four different arrays, all of them made during
    the call: none is an array the caller held before the call, the object
    included. *)
Theorem returned_arrays_are_new (lp lo ls : loc) c σ avg errs σ' :
  cdi_recon lp lo ls c σ = (Ok (avg, errs), σ') →
  NoDup [obj_error errs; diff_error errs; sup_error errs; avg]
  ∧ Forall (λ l, length σ ≤ l < length σ')
      [obj_error errs; diff_error errs; sup_error errs; avg].
Proof.
  unfold cdi_recon, cdi_prefix. unfold mbind at 1 2, M_bind at 1 2.
  destruct (cdi_entry lp lo ls c σ) as [[[[g e] st]|x] σ0] eqn:Hentry; [|done].
  apply cdi_entry_inv in Hentry as [-> Hlen].
  unfold mbind at 1, M_bind at 1.
  destruct (for_each _ _ st σ0) as [[st'|x] σN] eqn:Hloop; [|done].
  assert (length σ0 ≤ length σN) as Hmono.
  { destruct (frames_for_each 0 lo c g (the_env (length σ) lo) _ st
                ltac:(unfold env_ok; simpl; split_and!; [done|lia..]) ltac:(lia)
                σ0 _ σN ltac:(lia) Hloop) as [[H _] _]. done. }
  unfold mret at 1, M_ret at 1, cdi_finish, mbind, M_bind, read, alloc, mret, M_ret.
  destruct (σN !! obj_avg st'); [|done].
  intros [= <- <- <-]. rewrite length_app. simpl. split.
  - repeat (constructor;
            [intros He; repeat (apply elem_of_cons in He as [He|He]; [lia|]);
             by apply elem_of_nil in He|]).
    constructor.
  - repeat (constructor; [lia|]). constructor.
Qed.

End Returned.

Lemma returned_arrays_are_new_witness :
  ∃ avg errs σ',
    cdi_recon 0 1 2 (config_2x2 "Complex" 3) σ_2x2 = (Ok (avg, errs), σ')
    ∧ NoDup [obj_error errs; diff_error errs; sup_error errs; avg]
    ∧ Forall (λ l, 3 ≤ l < length σ') [obj_error errs; diff_error errs; sup_error errs; avg].
Proof.
  destruct (cdi_recon 0 1 2 (config_2x2 "Complex" 3) σ_2x2) as [[[avg errs]|x] σ'] eqn:Hrun.
  - exists avg, errs, σ'. split; [reflexivity|].
    exact (returned_arrays_are_new (K := Float64.kernel) 0 1 2 _ σ_2x2 avg errs σ' Hrun).
  - vm_compute in Hrun. discriminate Hrun.
Defined.

(** ** The box support *)

Section SliceLemmas.
Context {A : Type}.
Implicit Types (d : list A) (bs : list (list A)).

Lemma lookup_join sz bs i j :
  Forall (λ b, length b = sz) bs → j < sz →
  mjoin bs !! (i * sz + j) = bs !! i ≫= (.!! j).
Proof.
  intros H Hj. revert i. induction H as [|b bs Hb _ IH]; intros i; [done|].
  destruct i as [|i]; simpl.
  - rewrite lookup_app_l by lia. done.
  - rewrite lookup_app_r by lia.
    replace (sz + i * sz + j - length b) with (i * sz + j) by lia. apply IH.
Qed.

Lemma chunks_lookup sz cnt d i :
  i < cnt → chunks sz cnt d !! i = Some (take sz (drop (i * sz) d)).
Proof.
  revert d i. induction cnt as [|cnt IH]; intros d i Hi; [lia|].
  destruct i as [|i]; simpl; [done|].
  rewrite IH by lia. by rewrite drop_drop.
Qed.

Lemma fill_slices_length slcs : ∀ sh (c : A) d,
  length d = foldr Nat.mul 1 sh → length (fill_slices slcs sh c d) = length d.
Proof.
  induction slcs as [|s slcs IH]; intros sh c d Hd; simpl.
  - by rewrite length_fmap.
  - destruct sh as [|n rest]; [done|]. simpl in Hd.
    set (sz := foldr Nat.mul 1 rest) in *.
    rewrite (join_length sz).
    + rewrite length_imap, chunks_length. lia.
    + apply Forall_lookup. intros i b Hb.
      rewrite list_lookup_imap in Hb.
      destruct (chunks sz n d !! i) as [blk|] eqn:E; [|done].
      pose proof (chunks_Forall sz n d Hd) as Hc.
      rewrite Forall_lookup in Hc. specialize (Hc i blk E).
      simpl in Hb. injection Hb as <-.
      case_decide; [|done]. rewrite IH; by rewrite Hc.
Qed.

Lemma ravel_lt sh : ∀ idx, Forall2 lt idx sh → ravel sh idx < foldr Nat.mul 1 sh.
Proof.
  induction sh as [|n rest IH]; intros idx H; inversion H as [|i ? idx' ? Hi Hrest]; subst.
  - simpl. lia.
  - simpl. specialize (IH idx' Hrest). nia.
Qed.

(** The element at a multi-index after [fill_slices]. *)
Lemma fill_slices_lookup slcs : ∀ sh (c : A) d idx,
  length slcs = length sh → length d = foldr Nat.mul 1 sh → Forall2 lt idx sh →
  fill_slices slcs sh c d !! ravel sh idx
  = (if decide (Forall2 (λ s ni, slice_bound ni.1 (slice_start s) ≤ ni.2
                                 ∧ ni.2 < slice_bound ni.1 (slice_stop s))
                  slcs (zip sh idx))
     then Some c else d !! ravel sh idx).
Proof.
  induction slcs as [|s slcs IH]; intros sh c d idx Hlen Hd Hidx.
  - destruct sh; [|done]. inversion Hidx; subst. simpl in *.
    destruct d as [|x [|??]]; simpl in *; try lia. done.
  - destruct sh as [|n rest]; [done|].
    inversion Hidx as [|i ? idx' ? Hi Hrest]; subst.
    simpl in Hlen, Hd. cbn [fill_slices ravel zip zip_with].
    set (sz := foldr Nat.mul 1 rest) in *.
    pose proof (ravel_lt rest idx' Hrest) as Hj. fold sz in Hj.
    pose proof (chunks_Forall sz n d Hd) as Hc.
    assert (take sz (drop (i * sz) d) !! ravel rest idx' = d !! (i * sz + ravel rest idx'))
      as Hblk by (by rewrite lookup_take_lt, lookup_drop by done).
    assert (length (take sz (drop (i * sz) d)) = sz) as Hbl.
    { rewrite length_take, length_drop. nia. }
    rewrite (lookup_join sz); [|
      apply Forall_lookup; intros k b Hb; rewrite list_lookup_imap in Hb;
      destruct (chunks sz n d !! k) as [blk|] eqn:E; [|done];
      rewrite Forall_lookup in Hc; specialize (Hc k blk E);
      simpl in Hb; injection Hb as <-;
      case_decide; [|done]; rewrite fill_slices_length; by rewrite Hc
      | done].
    rewrite list_lookup_imap, chunks_lookup by done. simpl.
    destruct (decide (slice_bound n (slice_start s) ≤ i
                      ∧ i < slice_bound n (slice_stop s))) as [Hin|Hout].
    + rewrite IH by (done || lia).
      destruct (decide (Forall2 _ slcs (zip rest idx'))) as [Hf|Hf].
      * rewrite decide_True; [done|]. by constructor.
      * rewrite decide_False; [done|]. intros H'. by inversion H'.
    + rewrite decide_False; [done|]. intros H'. by inversion H'.
Qed.

End SliceLemmas.

Section BoxSupportLemmas.
Context {K : Numeric}.
Implicit Types (σ : store) (r s : Z).

(** The slices the function builds, for the axes of [shape_v]. *)
Lemma box_slices_length r (shape_v : list Z) :
  length ((λ s, {| slice_start := s `div` 2 - r; slice_stop := s `div` 2 + r |}) <$> shape_v)
  = length (Z.to_nat <$> shape_v).
Proof. by rewrite !length_fmap. Qed.

(** The call with a shape of one to 31 ints that [np.zeros] accepts. *)
Lemma box_support_run r (shape_v : list Z) σ :
  shape_v ≠ [] → Forall (λ s, 0 ≤ s)%Z shape_v → length shape_v < 32 →
  generate_box_support r shape_v σ
  = (Ok (length σ),
     σ ++ [mk_nd (Z.to_nat <$> shape_v)
             (fill_slices
                ((λ s, {| slice_start := s `div` 2 - r; slice_stop := s `div` 2 + r |})
                   <$> shape_v)
                (Z.to_nat <$> shape_v) (of_Z 1)
                (replicate (foldr Nat.mul 1 (Z.to_nat <$> shape_v)) (of_Z 0)))]).
Proof.
  intros Hne Hpos Hdim.
  unfold generate_box_support, np_zeros_shape, setitem_slices, mbind, M_bind, read, write,
    alloc, mret, M_ret.
  rewrite decide_True by (split; [done|lia]).
  rewrite list_lookup_middle by done. cbn [shape data].
  destruct shape_v as [|s0 shape_v]; [done|]. cbn [fmap list_fmap].
  rewrite decide_True by (simpl in *; rewrite !length_fmap; lia).
  rewrite list_lookup_middle by done.
  by rewrite insert_app_r_alt, Nat.sub_diag by lia.
Qed.

(** The slice of one axis, in the terms of the radius. *)
Lemma box_axis r s (i : nat) :
  (0 ≤ s)%Z → (Z.of_nat i < s)%Z →
  slice_bound (Z.to_nat s) (s `div` 2 - r) ≤ i ∧ i < slice_bound (Z.to_nat s) (s `div` 2 + r)
  ↔ (r ≤ s `div` 2 ∧ s `div` 2 - r ≤ Z.of_nat i < s `div` 2 + r)%Z
    ∨ (s `div` 2 < r ∧ s + s `div` 2 - r ≤ Z.of_nat i)%Z.
Proof.
  intros Hs Hi. unfold slice_bound.
  pose proof (Z.div_mod s 2 ltac:(lia)). pose proof (Z.mod_pos_bound s 2 ltac:(lia)).
  repeat case_decide; lia.
Qed.

Lemma box_axis_empty r s (i : nat) :
  (0 ≤ s)%Z → (r ≤ 0)%Z →
  ¬ (slice_bound (Z.to_nat s) (s `div` 2 - r) ≤ i
     ∧ i < slice_bound (Z.to_nat s) (s `div` 2 + r)).
Proof.
  intros Hs Hr. unfold slice_bound.
  pose proof (Z.div_mod s 2 ltac:(lia)). pose proof (Z.mod_pos_bound s 2 ltac:(lia)).
  repeat case_decide; lia.
Qed.

End BoxSupportLemmas.

Section BoxSupportTheorems.
Context {K : Numeric}.
Implicit Types (σ : store) (r s : Z).

(** X15. For a shape of one to 31 non-negative ints, [generate_box_support]
    returns a new array of that shape.  Its entry at a multi-index is 1 where
    on every axis the index is in the slice of that axis, and 0 elsewhere.  On
    an axis of length [s] with [r <= s//2] the slice holds the indices [i]
    with [s//2 - r <= i < s//2 + r]; with [s//2 < r] the lower bound of the
    slice is negative and counts from the end, and the slice holds the indices
    [i] with [s + s//2 - r <= i]: the last [r - s//2] indices of the axis, not
    a box around its centre. *)
Theorem box_support_entries r (shape_v : list Z) σ :
  shape_v ≠ [] → Forall (λ s, 0 ≤ s)%Z shape_v → length shape_v < 32 →
  ∃ sup,
    generate_box_support r shape_v σ = (Ok (length σ), σ ++ [sup])
    ∧ shape sup = Z.to_nat <$> shape_v ∧ wf sup
    ∧ ∀ idx : list nat,
        Forall2 (λ i s, (Z.of_nat i < s)%Z) idx shape_v →
        nd_get sup idx
        = Some (if decide (Forall2 (λ s i,
                             (r ≤ s `div` 2 ∧ s `div` 2 - r ≤ Z.of_nat i < s `div` 2 + r)%Z
                             ∨ (s `div` 2 < r ∧ s + s `div` 2 - r ≤ Z.of_nat i)%Z)
                             shape_v idx)
                then of_Z 1 else of_Z 0).
Proof.
  intros Hne Hpos Hdim. eexists. split; [by apply box_support_run|].
  cbn [shape data]. split; [done|].
  assert (length (replicate (foldr Nat.mul 1 (Z.to_nat <$> shape_v)) (of_Z 0))
          = foldr Nat.mul 1 (Z.to_nat <$> shape_v)) as Hlen by apply length_replicate.
  split.
  { unfold wf, np_size. cbn [shape data]. by rewrite fill_slices_length. }
  intros idx Hidx. unfold nd_get. cbn [shape data].
  assert (Forall2 lt idx (Z.to_nat <$> shape_v)) as Hlt.
  { apply Forall2_fmap_r. revert Hidx. apply Forall2_impl. intros i s ?. simpl. lia. }
  rewrite decide_True by done.
  rewrite fill_slices_lookup by (done || apply box_slices_length).
  rewrite lookup_replicate_2 by (by apply ravel_lt).
  match goal with
  | |- (if decide ?P then _ else _) = Some (if decide ?Q then _ else _) =>
      assert (P ↔ Q) as Hiff
  end.
  { clear Hne Hdim Hlen Hlt. revert idx Hidx.
    induction Hpos as [|s shape_v Hs Hpos IH]; intros idx Hidx;
      inversion Hidx as [|i ? idx' ? Hi Hrest]; subst; simpl.
    - split; constructor.
    - split; intros H; inversion H; subst; constructor;
        try (by apply IH); by apply (box_axis r s i). }
  destruct (decide _) as [H1|H1]; destruct (decide _) as [H2|H2]; try done; tauto.
Qed.

(** X16. What [generate_box_support] does with every radius and every list
    of ints as shape: it returns exactly when the shape has at least one and
    at most 31 entries, none of them negative; it raises a ValueError, having
    made nothing, exactly when an entry is negative or there are more than 32;
    and it raises an IndexError, its array of zeros made, exactly for a shape
    of no entry or of 32 entries that are not negative (a list of 32 slices
    is not read as a tuple of indices).  The radius is never checked. *)
Theorem box_support_returns r (shape_v : list Z) σ :
  ((generate_box_support r shape_v σ).1 = Ok (length σ)
     ↔ shape_v ≠ [] ∧ Forall (λ s, 0 ≤ s)%Z shape_v ∧ length shape_v < 32)
  ∧ (generate_box_support r shape_v σ = (Raise ValueError, σ)
       ↔ ¬ (Forall (λ s, 0 ≤ s)%Z shape_v ∧ length shape_v ≤ 32))
  ∧ (generate_box_support r shape_v σ
     = (Raise IndexError,
        σ ++ [mk_nd (Z.to_nat <$> shape_v)
                (replicate (foldr Nat.mul 1 (Z.to_nat <$> shape_v)) (of_Z 0))])
       ↔ Forall (λ s, 0 ≤ s)%Z shape_v ∧ (shape_v = [] ∨ length shape_v = 32)).
Proof.
  destruct (decide (Forall (λ s, 0 ≤ s)%Z shape_v ∧ length shape_v ≤ 32)) as [[Hpos Hdim]|Hbad].
  - destruct (decide (shape_v ≠ [] ∧ length shape_v < 32)) as [[Hne Hlt]|Hedge].
    + rewrite (box_support_run r shape_v σ) by done. simpl.
      split_and!; split; try done.
      * intros H. by destruct H.
      * intros [_ [->|H]]; [done|lia].
    + assert (generate_box_support r shape_v σ
              = (Raise IndexError,
                 σ ++ [mk_nd (Z.to_nat <$> shape_v)
                         (replicate (foldr Nat.mul 1 (Z.to_nat <$> shape_v)) (of_Z 0))])) as E.
      { unfold generate_box_support, np_zeros_shape, setitem_slices, mbind, M_bind, read,
          alloc, lift. rewrite decide_True by done.
        rewrite list_lookup_middle by done. cbn [shape].
        destruct shape_v as [|s0 shape_v]; [done|]. cbn [fmap list_fmap].
        rewrite decide_False; [done|].
        intros [Hlt _]. apply Hedge. split; [done|].
        simpl in *. rewrite length_fmap in Hlt. lia. }
      rewrite E. simpl. split_and!; split; try done.
      * intros (Hne & _ & Hlt). by destruct Hedge.
      * intros H. by destruct H.
      * intros _. split; [done|].
        destruct shape_v as [|s0 shape_v]; [by left|right].
        destruct (decide (length (s0 :: shape_v) = 32)); [done|].
        destruct Hedge. split; [done|lia].
  - assert (generate_box_support r shape_v σ = (Raise ValueError, σ)) as E.
    { unfold generate_box_support, np_zeros_shape, mbind, M_bind, lift.
      by rewrite decide_False. }
    rewrite E. simpl. split_and!; split; try done.
    + intros (_ & ? & ?). destruct Hbad. split; [done|lia].
    + intros [Hpos [->|Hlen]]; destruct Hbad; (split; [done|simpl; lia]).
Qed.

(** X17. A radius of zero or below makes no box and no error: for a shape of
    one to 31 non-negative ints the array returned holds zeros only. *)
Theorem box_support_no_radius r (shape_v : list Z) σ :
  (r ≤ 0)%Z →
  shape_v ≠ [] → Forall (λ s, 0 ≤ s)%Z shape_v → length shape_v < 32 →
  generate_box_support r shape_v σ
  = (Ok (length σ),
     σ ++ [mk_nd (Z.to_nat <$> shape_v)
             (replicate (foldr Nat.mul 1 (Z.to_nat <$> shape_v)) (of_Z 0))]).
Proof.
  intros Hr Hne Hpos Hdim. rewrite box_support_run by done. do 3 f_equal.
  destruct shape_v as [|s0 shape_v]; [done|]. apply Forall_cons_1 in Hpos as [Hs0 _].
  cbn [fmap list_fmap fill_slices foldr].
  set (sz := foldr Nat.mul 1 _).
  rewrite (imap_ext _ (const id)).
  - rewrite imap_const, list_fmap_id. f_equal. apply join_chunks.
    rewrite length_replicate. lia.
  - intros i blk _. simpl. rewrite decide_False; [done|]. by apply box_axis_empty.
Qed.

End BoxSupportTheorems.

Lemma box_support_entries_witness :
  ∃ sup,
    generate_box_support 3 [4; 6]%Z [] = (Ok 0, [sup])
    ∧ nd_get sup [3; 5] = Some (Float64.Re 1)
    ∧ nd_get sup [3; 0] = Some (Float64.Re 1)
    ∧ nd_get sup [2; 5] = Some (Float64.Re 0).
Proof.
  destruct (box_support_entries (K := Float64.kernel) 3 [4; 6]%Z [])
    as (sup & Hrun & _ & _ & Hget); [discriminate|repeat constructor; lia|simpl; lia|].
  exists sup. split; [exact Hrun|].
  split; [|split].
  - rewrite (Hget [3; 5]) by (repeat constructor; lia). reflexivity.
  - rewrite (Hget [3; 0]) by (repeat constructor; lia). reflexivity.
  - rewrite (Hget [2; 5]) by (repeat constructor; lia). reflexivity.
Defined.

Lemma box_support_no_radius_witness :
  generate_box_support (-1) [4; 6]%Z []
  = (Ok 0, [mk_nd [4; 6] (replicate 24 (Float64.Re 0))]).
Proof.
  apply (box_support_no_radius (K := Float64.kernel) (-1) [4; 6]%Z []);
    [lia|discriminate|repeat constructor; lia|simpl; lia].
Defined.
